(** * Sales analysis pipeline (analise_avancada.py, analise.py)

    A shallow embedding of the pandas pipeline of [AnaliseVendasAvancada]:
    data preparation, grouped aggregation, temporal analysis, cross
    tabulation and outlier detection, followed by the properties that the
    specification states about them.

    Modelling conventions.
    - A DataFrame is the list of its rows, in row order.
    - The elementwise product that defines the revenue column is modelled
      at machine level in [series_mul]: an int64 product keeps the low 64
      bits, a float64 product is the binary64 product of the standard
      library's [SpecFloat], rounded to nearest.
    - The table of [preparar_dados] and the analyses (cost, profit,
      rolling means, sums, means, deviations, quantiles, growth rates) are
      modelled over exact values: a number is a rational, and a float64
      column holds rationals extended with the IEEE special values (+inf,
      -inf, NaN). Neither the rounding error of binary floating point nor
      the wrap-around of int64 is modelled there: the revenue column of
      the table holds the exact products, which are the cells of
      [series_mul] on int64 columns whose products stay in the int64
      range. [valor] maps a machine number to the rational it denotes.
    - A date is a timestamp, counted in nanoseconds from 1970-01-01 00:00;
      parsing of the CSV text is not modelled.
    - The order that a sort gives to equal values is not fixed by numpy's
      default sort; the sort is a parameter [argsort] of the functions that
      sort by value, constrained by [argsort_ok].
    - Printing, plotting and file export are not modelled. *)

From Stdlib Require Import String.
From Stdlib Require Import List Bool Arith ZArith QArith Qround.
From Stdlib Require Import Permutation Sorted Lia Lqa.
From Stdlib Require Import SpecFloat.
Import ListNotations.

Open Scope Q_scope.

(** ** float64: rationals with the IEEE special values *)

Inductive float64 : Type :=
| Fin (q : Q)
| PInf
| NInf
| NaN.

Definition Qltb (x y : Q) : bool := negb (Qle_bool y x).

Definition isnan (x : float64) : bool :=
  match x with NaN => true | _ => false end.

Definition fneg (x : float64) : float64 :=
  match x with
  | Fin q => Fin (- q)
  | PInf => NInf
  | NInf => PInf
  | NaN => NaN
  end.

Definition fadd (x y : float64) : float64 :=
  match x, y with
  | NaN, _ | _, NaN => NaN
  | Fin a, Fin b => Fin (a + b)
  | PInf, NInf | NInf, PInf => NaN
  | PInf, _ | _, PInf => PInf
  | NInf, _ | _, NInf => NInf
  end.

Definition fsub (x y : float64) : float64 := fadd x (fneg y).

(** The infinity whose sign is the sign of [q]; NaN for [q == 0]. *)
Definition inf_of_sign (q : Q) : float64 :=
  if Qeq_bool q 0 then NaN else if Qltb 0 q then PInf else NInf.

Definition fmul (x y : float64) : float64 :=
  match x, y with
  | NaN, _ | _, NaN => NaN
  | Fin a, Fin b => Fin (a * b)
  | Fin a, PInf | PInf, Fin a => inf_of_sign a
  | Fin a, NInf | NInf, Fin a => inf_of_sign (- a)
  | PInf, PInf | NInf, NInf => PInf
  | PInf, NInf | NInf, PInf => NInf
  end.

Definition fdiv (x y : float64) : float64 :=
  match x, y with
  | NaN, _ | _, NaN => NaN
  | Fin a, Fin b => if Qeq_bool b 0 then inf_of_sign a else Fin (a / b)
  | Fin _, _ => Fin 0
  | PInf, Fin b => if Qle_bool 0 b then PInf else NInf
  | NInf, Fin b => if Qle_bool 0 b then NInf else PInf
  | _, _ => NaN
  end.

(** [x < y] on float64: false as soon as one side is NaN. *)
Definition flt (x y : float64) : bool :=
  match x, y with
  | NaN, _ | _, NaN => false
  | Fin a, Fin b => Qltb a b
  | NInf, NInf | PInf, _ => false
  | NInf, _ => true
  | Fin _, PInf => true
  | Fin _, NInf => false
  end.

Definition of_Z (n : Z) : float64 := Fin (inject_Z n).
Definition of_nat (n : nat) : float64 := of_Z (Z.of_nat n).

(** ** Series reductions *)

Definition Qsum (l : list Q) : Q := fold_right Qplus 0 l.
Definition Zsum (l : list Z) : Z := fold_right Z.add 0%Z l.
Definition fsum (l : list float64) : float64 := fold_right fadd (Fin 0) l.

(** [Series.mean()] of a column without missing values. *)
Definition mean (l : list Q) : float64 :=
  match l with
  | [] => NaN
  | _ => Fin (Qsum l / inject_Z (Z.of_nat (length l)))
  end.

(** [Series.mean()] with the default [skipna=True]: NaN entries are left
    out of both the sum and the count; infinities are ordinary values. *)
Definition notna (l : list float64) : list float64 :=
  filter (fun x => negb (isnan x)) l.

Definition fmean (l : list float64) : float64 :=
  match notna l with
  | [] => NaN
  | xs => fdiv (fsum xs) (of_nat (length xs))
  end.

(** [round(2)]: numpy rounds half to even. *)
Definition round_half_even (x : Q) : Z :=
  let f := Qfloor x in
  let r := x - inject_Z f in
  if Qltb r (1 # 2) then f
  else if Qltb (1 # 2) r then (f + 1)%Z
  else if Z.even f then f else (f + 1)%Z.

Definition Qround2 (x : Q) : Q :=
  Qred (inject_Z (round_half_even (x * 100)) / 100).

Definition round2 (x : float64) : float64 :=
  match x with Fin q => Fin (Qround2 q) | _ => x end.

(** The square root of [v >= 0] rounded to two decimals, computed exactly:
    with [m = floor (200 * sqrt v)], the value [100 * sqrt v] lies in
    [[m/2, (m+1)/2)], and it is a tie only when [40000 * v = m * m]. *)
Definition sqrt_round2 (v : Q) : Q :=
  let w := v * 40000 in
  let m := Z.sqrt (Qfloor w) in
  let k := (m / 2)%Z in
  let up := if Z.even m then false
            else if Qeq_bool w (inject_Z (m * m)) then negb (Z.even k)
            else true in
  Qred (inject_Z (if up then k + 1 else k)%Z / 100).

(** ** Calendar *)

(** A [Timestamp] is its count of nanoseconds since 1970-01-01 00:00. *)
Definition NS_POR_DIA : Z := 86400000000000.
Definition NS_POR_HORA : Z := 3600000000000.

(** The day number of a timestamp, counted from 1970-01-01, and the
    timestamp of the midnight that starts a day. *)
Definition dia_de (ts : Z) : Z := (ts / NS_POR_DIA)%Z.
Definition meia_noite (d : Z) : Z := (d * NS_POR_DIA)%Z.

(** The time of day of a timestamp, in nanoseconds after midnight. *)
Definition hora_do_dia (ts : Z) : Z := (ts mod NS_POR_DIA)%Z.

(** Civil date (year, month, day) of a day number; proleptic Gregorian. *)
Definition civil_from_days (n : Z) : Z * Z * Z :=
  let z := (n + 719468)%Z in
  let era := (z / 146097)%Z in
  let doe := (z mod 146097)%Z in
  let yoe := ((doe - doe / 1460 + doe / 36524 - doe / 146096) / 365)%Z in
  let doy := (doe - (365 * yoe + yoe / 4 - yoe / 100))%Z in
  let mp := ((5 * doy + 2) / 153)%Z in
  let d := (doy - (153 * mp + 2) / 5 + 1)%Z in
  let m := (if mp <? 10 then mp + 3 else mp - 9)%Z in
  let y := (yoe + era * 400 + (if m <=? 2 then 1 else 0))%Z in
  (y, m, d).

Definition days_from_civil (y m d : Z) : Z :=
  let y' := (if m <=? 2 then y - 1 else y)%Z in
  let era := (y' / 400)%Z in
  let yoe := (y' mod 400)%Z in
  let doy := ((153 * (if 2 <? m then m - 3 else m + 9) + 2) / 5 + d - 1)%Z in
  let doe := (yoe * 365 + yoe / 4 - yoe / 100 + doy)%Z in
  (era * 146097 + doe - 719468)%Z.

(** 0 = Monday, ..., 6 = Sunday; 1970-01-01 was a Thursday. *)
Definition weekday (n : Z) : Z := ((n + 3) mod 7)%Z.

Definition dias_ordem : list string :=
  ["Monday"; "Tuesday"; "Wednesday"; "Thursday"; "Friday"; "Saturday";
   "Sunday"]%string.

Definition meses : list string :=
  ["January"; "February"; "March"; "April"; "May"; "June"; "July"; "August";
   "September"; "October"; "November"; "December"]%string.

(** [dt.day_name()], [dt.month_name()] of the timestamps of day [n] *)
Definition day_name (n : Z) : string :=
  nth (Z.to_nat (weekday n)) dias_ordem EmptyString.

Definition month_name (n : Z) : string :=
  let '(_, m, _) := civil_from_days n in
  nth (Z.to_nat (m - 1)) meses EmptyString.

(** [dt.isocalendar().week]: the week of the year that holds the Thursday
    of the date's week. *)
Definition iso_week (n : Z) : Z :=
  let thursday := (n - weekday n + 3)%Z in
  let '(y, _, _) := civil_from_days thursday in
  ((thursday - days_from_civil y 1 1) / 7 + 1)%Z.

(** ** Sorting, distinct values, label lookup *)

Section Ordenar.
Context {A : Type} (leb : A -> A -> bool).

Fixpoint inserir (x : A) (l : list A) : list A :=
  match l with
  | [] => [x]
  | y :: l' => if leb x y then x :: l else y :: inserir x l'
  end.

(** A stable sort: among equal elements the earlier one stays first. *)
Definition ordenar (l : list A) : list A := fold_right inserir [] l.
End Ordenar.

Section Unique.
Context {K : Type} (keqb : K -> K -> bool).

(** [Series.unique()]: the distinct values, in order of first
    appearance. *)
Fixpoint unique_from (seen l : list K) : list K :=
  match l with
  | [] => []
  | k :: l' =>
      if existsb (keqb k) seen then unique_from seen l'
      else k :: unique_from (k :: seen) l'
  end.

Definition unique (l : list K) : list K := unique_from [] l.

(** [frame.loc[k]] on a frame given as its (label, row) pairs. *)
Fixpoint loc {V : Type} (k : K) (frame : list (K * V)) : option V :=
  match frame with
  | [] => None
  | (k', v) :: rest => if keqb k k' then Some v else loc k rest
  end.

(** [frame.reindex(labels)]: one row per requested label, in the order
    requested; a label the frame lacks receives [fill]. *)
Definition reindex {V : Type} (labels : list K) (fill : V)
  (frame : list (K * V)) : list (K * V) :=
  map (fun k => (k, match loc k frame with Some v => v | None => fill end))
      labels.
End Unique.

(** ** Tables *)

(** A row of the CSV file as [pd.read_csv] returns it: a cell that is empty
    in the file is missing ([None]). The date cell is given as the
    timestamp that [pd.to_datetime] reads from it. *)
Module Csv.
Record row : Type := mk_row {
  date : option Z;
  product : option string;
  region : option string;
  price : option Q;
  quantity : option Z
}.
End Csv.

(** A complete transaction: a row that survives [dropna]. *)
Record venda : Type := mk_venda {
  date : Z;
  product : string;
  region : string;
  price : Q;
  quantity : Z
}.

(** A row of [df_processado]: the transaction and its derived columns. *)
Record registro : Type := mk_registro {
  tx : venda;
  revenue : Q;
  revenue_ma7 : float64;
  day_of_week : string;
  month : string;
  week_number : Z;
  price_category : option string;
  order_value_category : option string;
  margin_percent : Q;
  cost : Q;
  profit : Q
}.

(** *** Cleaning *)

Definition option_eqb {A : Type} (eqb : A -> A -> bool) (x y : option A)
  : bool :=
  match x, y with
  | Some a, Some b => eqb a b
  | None, None => true
  | _, _ => false
  end.

(** Row equality of [drop_duplicates]: cell by cell, two missing cells
    counting as equal, numbers compared by value. *)
Definition row_eqb (a b : Csv.row) : bool :=
  option_eqb Z.eqb (Csv.date a) (Csv.date b)
  && option_eqb String.eqb (Csv.product a) (Csv.product b)
  && option_eqb String.eqb (Csv.region a) (Csv.region b)
  && option_eqb Qeq_bool (Csv.price a) (Csv.price b)
  && option_eqb Z.eqb (Csv.quantity a) (Csv.quantity b).

(** [drop_duplicates()] keeps the first occurrence of every row. *)
Definition drop_duplicates (df : list Csv.row) : list Csv.row :=
  unique row_eqb df.

(** The CSV rows whose product cell holds [p]. *)
Definition do_produto_csv (p : string) (r : Csv.row) : bool :=
  option_eqb String.eqb (Csv.product r) (Some p).

Definition completa (r : Csv.row) : option venda :=
  match Csv.date r, Csv.product r, Csv.region r, Csv.price r,
        Csv.quantity r with
  | Some d, Some p, Some g, Some x, Some q => Some (mk_venda d p g x q)
  | _, _, _, _, _ => None
  end.

(** [dropna()] removes every row that has a missing cell. *)
Fixpoint dropna (df : list Csv.row) : list venda :=
  match df with
  | [] => []
  | r :: rest =>
      match completa r with
      | Some v => v :: dropna rest
      | None => dropna rest
      end
  end.

(** *** Rolling mean within groups *)

(** [x.rolling(window=w, min_periods=1).mean()]: at position [k] the mean
    of the last [w] values up to and including [k], of all of them while
    there are fewer than [w]. *)
Definition rolling_mean (w : nat) (x : list Q) : list float64 :=
  map (fun k => mean (skipn (S k - w) (firstn (S k) x))) (seq 0 (length x)).

Section GroupbyTransform.
Context {A K : Type} (key : A -> K) (keqb : K -> K -> bool).
Context (val : A -> Q) (f : list Q -> list float64).

(** The rows of the group of key [k], in row order. *)
Definition grupo (k : K) (t : list A) : list A :=
  filter (fun r => keqb (key r) k) t.

(** [df.groupby(key)[val].transform(f)]: [f] is applied to the values of
    each group taken in row order, and every row receives the entry of
    its own position within its group. [done] holds the rows before
    [rest]. *)
Fixpoint transform_from (done rest : list A) : list float64 :=
  match rest with
  | [] => []
  | r :: rest' =>
      nth (length (grupo (key r) done))
          (f (map val (grupo (key r) (done ++ rest)))) NaN
      :: transform_from (done ++ [r]) rest'
  end.

Definition groupby_transform (t : list A) : list float64 :=
  transform_from [] t.
End GroupbyTransform.

(** *** Binning *)

(** [bins.searchsorted(x, side='left')] on increasing [bins]: the number of
    edges strictly below [x]. *)
Definition searchsorted_left (bins : list float64) (x : Q) : nat :=
  length (filter (fun b => flt b (Fin x)) bins).

(** [pd.cut(x, bins, labels)] with the default [right=True] and
    [include_lowest=False]: the label of the interval [(lo, hi]] that holds
    [x]; missing when [x] is at or below the first edge or above the last. *)
Definition cut (bins : list float64) (labels : list string) (x : Q)
  : option string :=
  let ids := searchsorted_left bins x in
  if (ids =? 0)%nat || (ids =? length bins)%nat then None
  else nth_error labels (ids - 1).

Definition price_bins : list float64 :=
  [Fin 0; Fin 50; Fin 100; Fin 150; Fin 200].
Definition price_labels : list string :=
  ["Baixo"; "Médio"; "Alto"; "Premium"]%string.

Definition order_bins : list float64 :=
  [Fin 0; Fin 100; Fin 500; Fin 1000; PInf].
Definition order_labels : list string :=
  ["Pequeno"; "Médio"; "Grande"; "Muito Grande"]%string.

(** *** preparar_dados *)

(** [np.random.seed(42); np.random.uniform(20, 60, n)] is taken as the
    stream [uniform] of its draws: row [i] receives draw [i]. The products
    and the difference are the exact ones; [series_mul] gives the cells
    that line 80 stores. *)
Definition enriquecer (uniform : nat -> Q) (i : nat) (v : venda)
  (ma7 : float64) : registro :=
  let revenue := price v * inject_Z (quantity v) in
  let margin_percent := uniform i in
  let cost := price v * (1 - margin_percent / 100) in
  {| tx := v;
     revenue := revenue;
     revenue_ma7 := ma7;
     day_of_week := day_name (dia_de (date v));
     month := month_name (dia_de (date v));
     week_number := iso_week (dia_de (date v));
     price_category := cut price_bins price_labels (price v);
     order_value_category := cut order_bins order_labels revenue;
     margin_percent := margin_percent;
     cost := cost;
     profit := revenue - cost * inject_Z (quantity v) |}.

Fixpoint enriquecer_from (uniform : nat -> Q) (i : nat) (vs : list venda)
  (ma7 : list float64) : list registro :=
  match vs, ma7 with
  | v :: vs', m :: ma7' =>
      enriquecer uniform i v m :: enriquecer_from uniform (S i) vs' ma7'
  | _, _ => []
  end.

Definition preparar_dados (uniform : nat -> Q) (df : list Csv.row)
  : list registro :=
  let df_processado := dropna (drop_duplicates df) in
  let revenue_ma7 :=
    groupby_transform product String.eqb
      (fun v => price v * inject_Z (quantity v)) (rolling_mean 7)
      df_processado in
  enriquecer_from uniform 0 df_processado revenue_ma7.

(** ** Grouping *)

Section Groupby.
Context {A K : Type} (key : A -> K) (keqb kleb : K -> K -> bool).

(** The group labels: the distinct keys, sorted. *)
Definition chaves (t : list A) : list K :=
  ordenar kleb (unique keqb (map key t)).

(** [df.groupby(key)]: every label with the rows of its group. *)
Definition groupby (t : list A) : list (K * list A) :=
  map (fun k => (k, grupo key keqb k t)) (chaves t).
End Groupby.

(** ** Exceptions and insights *)

Inductive erro : Type :=
| IndexError   (* [index[0]] on an empty index *)
| ValueError.  (* [pd.date_range] with a missing start or end *)

(** The findings appended to [self.insights]; the text around the values is
    not modelled. *)
Inductive insight : Type :=
| ProdutoMaisRentavel (produto : string) (faturamento : float64)
| ProdutoMenosRentavel (produto : string) (faturamento : float64)
| RegiaoLider (regiao : string) (participacao : float64)
| MelhorDia (dia : option string)
| VendasAtipicas (n : nat).

(** ** Sorting by value

    [sort_values(ascending=False)] sorts through [nargsort]: the values
    that are not NaN are reversed, argsorted in ascending order with
    numpy's default sort, and the positions found are reversed back; the
    NaN values go last. numpy's default sort is not stable, so the order
    of equal values depends on its implementation: [argsort] stands for
    it, and [argsort_ok] is what numpy guarantees of it on values without
    NaN. *)

(** [argsort] returns every position once, with the values in ascending
    order. *)
Definition argsort_ok (argsort : list float64 -> list nat) : Prop :=
  forall x : list float64,
    Forall (fun v => isnan v = false) x ->
    Permutation (argsort x) (seq 0 (length x)) /\
    StronglySorted (fun i j => flt (nth j x NaN) (nth i x NaN) = false)
                   (argsort x).

(** [frame.take(indexer)] *)
Definition take {A : Type} (frame : list A) (indexer : list nat) : list A :=
  flat_map (fun i => match nth_error frame i with
                     | Some r => [r]
                     | None => []
                     end) indexer.

Definition sort_values_desc {K V : Type} (argsort : list float64 -> list nat)
  (col : V -> float64) (frame : list (K * V)) : list (K * V) :=
  let non_nan :=
    rev (filter (fun e => negb (isnan (col (snd e)))) frame) in
  let nan := filter (fun e => isnan (col (snd e))) frame in
  let indexer := argsort (map (fun e => col (snd e)) non_nan) in
  rev (take non_nan indexer) ++ nan.

(** One sort that meets [argsort_ok]: the stable insertion sort of the
    positions by their values. *)
Definition argsort_estavel (x : list float64) : list nat :=
  map fst (ordenar (fun a b => negb (flt (snd b) (snd a)))
                   (combine (seq 0 (length x)) x)).

(** ** analise_por_produto *)

(** Sample variance ([ddof = 1]); undefined below two observations. *)
Definition var (l : list Q) : option Q :=
  match l with
  | [] | [_] => None
  | _ =>
      let n := inject_Z (Z.of_nat (length l)) in
      let m := Qsum l / n in
      Some (Qsum (map (fun x => (x - m) * (x - m)) l) / (n - 1))
  end.

(** ['std'] followed by [round(2)]. *)
Definition std_round2 (l : list Q) : float64 :=
  match var l with
  | None => NaN
  | Some v => Fin (sqrt_round2 v)
  end.

Module Produto.
Record row : Type := mk_row {
  qtd_total : float64;
  qtd_media : float64;
  num_vendas : float64;
  faturamento_total : float64;
  faturamento_medio : float64;
  lucro_total : float64;
  lucro_medio : float64;
  preco_medio : float64;
  preco_std : float64;
  margem_media : float64
}.
End Produto.

Definition quantidades (g : list registro) : list Q :=
  map (fun r => inject_Z (quantity (tx r))) g.

(** The aggregate row of one group, after [round(2)]. *)
Definition agg_produto (g : list registro) : Produto.row :=
  {| Produto.qtd_total := round2 (Fin (Qsum (quantidades g)));
     Produto.qtd_media := round2 (mean (quantidades g));
     Produto.num_vendas := round2 (of_nat (length g));
     Produto.faturamento_total := round2 (Fin (Qsum (map revenue g)));
     Produto.faturamento_medio := round2 (mean (map revenue g));
     Produto.lucro_total := round2 (Fin (Qsum (map profit g)));
     Produto.lucro_medio := round2 (mean (map profit g));
     Produto.preco_medio := round2 (mean (map (fun r => price (tx r)) g));
     Produto.preco_std := std_round2 (map (fun r => price (tx r)) g);
     Produto.margem_media := round2 (mean (map margin_percent g)) |}.

(** [groupby('product').agg(...).round(2)] sorted by [faturamento_total],
    largest first. *)
Definition tabela_produto (argsort : list float64 -> list nat)
  (df_processado : list registro) : list (string * Produto.row) :=
  sort_values_desc argsort Produto.faturamento_total
    (map (fun '(k, g) => (k, agg_produto g))
       (groupby (fun r => product (tx r)) String.eqb String.leb
          df_processado)).

Definition analise_por_produto (argsort : list float64 -> list nat)
  (df_processado : list registro)
  : erro + (list (string * Produto.row) * list insight) :=
  let analise_produto := tabela_produto argsort df_processado in
  match analise_produto with
  | [] => inl IndexError
  | (produto_top, top) :: _ =>
      let '(produto_pior, pior) :=
        last analise_produto (produto_top, top) in
      inr (analise_produto,
           [ProdutoMaisRentavel produto_top (Produto.faturamento_total top);
            ProdutoMenosRentavel produto_pior
              (Produto.faturamento_total pior)])
  end.

(** ** analise_por_regiao *)





Module Regiao.
Record row : Type := mk_row {
  faturamento_total : float64;
  faturamento_medio : float64;
  num_vendas : float64;
  lucro_total : float64;
  lucro_medio : float64;
  qtd_total : float64;
  num_produtos : float64;
  participacao : float64
}.
End Regiao.





(** ** analise_temporal *)

Module Diario.
Record row : Type := mk_row {
  revenue : Q;
  quantity : Z;
  profit : Q
}.

Definition zero : row := mk_row 0 0%Z 0.
End Diario.

Module Semana.
Record row : Type := mk_row {
  faturamento_total : float64;
  faturamento_medio : float64;
  num_vendas : float64
}.

Definition nan : row := mk_row NaN NaN NaN.
End Semana.

(** Column-wise ['sum'] of revenue, quantity and profit. *)
Definition soma_diaria (g : list registro) : Diario.row :=
  {| Diario.revenue := Qsum (map revenue g);
     Diario.quantity := Zsum (map (fun r => quantity (tx r)) g);
     Diario.profit := Qsum (map profit g) |}.

Definition soma_linhas (l : list Diario.row) : Diario.row :=
  {| Diario.revenue := Qsum (map Diario.revenue l);
     Diario.quantity := Zsum (map Diario.quantity l);
     Diario.profit := Qsum (map Diario.profit l) |}.

(** [pd.date_range(start, end)] with the default daily frequency: the
    timestamps [start], [start + 1 day], ... that do not pass [end]. They
    keep the time of day of [start]. *)
Definition date_range (start fim : Z) : list Z :=
  map (fun i => (start + Z.of_nat i * NS_POR_DIA)%Z)
      (seq 0 (Z.to_nat ((fim - start) / NS_POR_DIA + 1))).

(** The day numbers from [a] to [b], both included. *)
Definition dias_entre (a b : Z) : list Z :=
  map (fun i => (a + Z.of_nat i)%Z) (seq 0 (Z.to_nat (b - a + 1))).

(** [resample('D').sum()] of a frame indexed by increasing timestamps: one
    row for every day from the day of the first label to the day of the
    last, labelled with the midnight that starts the day and holding the
    sum of the rows whose timestamp falls on that day. *)
Definition resample_D_sum (frame : list (Z * Diario.row))
  : list (Z * Diario.row) :=
  match frame with
  | [] => []
  | (t0, _) :: _ =>
      let t1 := fst (last frame (t0, Diario.zero)) in
      map (fun d =>
             (meia_noite d,
              soma_linhas
                (map snd (filter (fun e => (dia_de (fst e) =? d)%Z) frame))))
          (dias_entre (dia_de t0) (dia_de t1))
  end.

(** [Series.min()] and [Series.max()] of the date column, the earliest and
    the latest timestamp; missing ([NaT]) on an empty column. *)
Definition date_min (l : list Z) : option Z :=
  match l with
  | [] => None
  | d :: rest => Some (fold_right Z.min d rest)
  end.

Definition date_max (l : list Z) : option Z :=
  match l with
  | [] => None
  | d :: rest => Some (fold_right Z.max d rest)
  end.

(** [Series.pct_change()]: [x / x.shift(1) - 1]; the first entry has no
    predecessor and is NaN. *)
Definition pct_change (x : list float64) : list float64 :=
  match x with
  | [] => []
  | _ :: seguintes =>
      NaN :: map (fun '(anterior, atual) => fsub (fdiv atual anterior) (Fin 1))
                 (combine x seguintes)
  end.

(** [pct_change().mean() * 100] *)
Definition crescimento_medio (x : list Q) : float64 :=
  fmul (fmean (pct_change (map Fin x))) (Fin 100).

Definition agg_dia_semana (g : list registro) : Semana.row :=
  {| Semana.faturamento_total := round2 (Fin (Qsum (map revenue g)));
     Semana.faturamento_medio := round2 (mean (map revenue g));
     Semana.num_vendas := round2 (of_nat (length g)) |}.

(** [Series.idxmax()]: the label of the first largest entry, NaN entries
    skipped; missing when every entry is NaN. *)
Fixpoint idxmax {K : Type} (s : list (K * float64)) : option (K * float64) :=
  match s with
  | [] => None
  | (k, v) :: rest =>
      match idxmax rest with
      | None => if isnan v then None else Some (k, v)
      | Some (k', v') =>
          if isnan v || flt v v' then Some (k', v') else Some (k, v)
      end
  end.

Definition vendas_diarias_de (df_processado : list registro)
  : erro + list (Z * Diario.row) :=
  let vendas_diarias :=
    resample_D_sum
      (map (fun '(d, g) => (d, soma_diaria g))
           (groupby (fun r => date (tx r)) Z.eqb Z.leb df_processado)) in
  let datas := map (fun r => date (tx r)) df_processado in
  match date_min datas, date_max datas with
  | Some inicio, Some fim =>
      inr (reindex Z.eqb (date_range inicio fim) Diario.zero vendas_diarias)
  | _, _ => inl ValueError
  end.

(** The value printed as the mean daily growth. *)
Definition crescimento_diario (vendas_diarias : list (Z * Diario.row))
  : float64 :=
  crescimento_medio (map (fun e => Diario.revenue (snd e)) vendas_diarias).

Definition vendas_dia_semana_de (df_processado : list registro)
  : list (string * Semana.row) :=
  reindex String.eqb dias_ordem Semana.nan
    (map (fun '(k, g) => (k, agg_dia_semana g))
         (groupby day_of_week String.eqb String.leb df_processado)).

Record temporal : Type := mk_temporal {
  vendas_diarias : list (Z * Diario.row);
  vendas_dia_semana : list (string * Semana.row)
}.

Definition analise_temporal (df_processado : list registro)
  : erro + (temporal * list insight) :=
  match vendas_diarias_de df_processado with
  | inl e => inl e
  | inr diarias =>
      let semana := vendas_dia_semana_de df_processado in
      let melhor_dia :=
        idxmax (map (fun e => (fst e, Semana.faturamento_total (snd e)))
                    semana) in
      inr (mk_temporal diarias semana,
           [MelhorDia (option_map fst melhor_dia)])
  end.

(** ** analise_cruzada *)

Definition pair_eqb {R C : Type} (reqb : R -> R -> bool)
  (ceqb : C -> C -> bool) (a b : R * C) : bool :=
  reqb (fst a) (fst b) && ceqb (snd a) (snd b).

(** Lexicographic order of the (row label, column label) pairs. *)
Definition pair_leb {R C : Type} (reqb rleb : R -> R -> bool)
  (cleb : C -> C -> bool) (a b : R * C) : bool :=
  if reqb (fst a) (fst b) then cleb (snd a) (snd b) else rleb (fst a) (fst b).

Record pivot (R C : Type) : Type := mk_pivot {
  pv_index : list R;
  pv_columns : list C;
  pv_cells : list (list Q)
}.
Arguments mk_pivot {R C}.
Arguments pv_index {R C}.
Arguments pv_columns {R C}.
Arguments pv_cells {R C}.

Section PivotTable.
Context {A R C : Type}.
Context (index : A -> option R) (columns : A -> option C).
Context (values : A -> Q).
Context (reqb rleb : R -> R -> bool) (ceqb cleb : C -> C -> bool).

(** Rows with a missing label are left out of the groups
    ([dropna=True]). *)
Fixpoint rotulados (t : list A) : list ((R * C) * A) :=
  match t with
  | [] => []
  | r :: rest =>
      match index r, columns r with
      | Some i, Some c => ((i, c), r) :: rotulados rest
      | _, _ => rotulados rest
      end
  end.

(** [groupby([index, columns]).agg('sum')]: the sum of every combination
    of labels that occurs. *)
Definition agged (t : list A) : list ((R * C) * Q) :=
  map (fun '(k, g) => (k, Qsum (map (fun e => values (snd e)) g)))
      (groupby fst (pair_eqb reqb ceqb) (pair_leb reqb rleb cleb)
               (rotulados t)).

(** The entry written at the labels [(i, c)]: the sum of the
    combination, [fill_value] where the combination has none. *)
Definition entrada (fill_value : Q) (a : list ((R * C) * Q)) (i : R)
  (c : C) : Q :=
  match loc (pair_eqb reqb ceqb) (i, c) a with
  | Some v => v
  | None => fill_value
  end.

(** [pd.pivot_table(t, values, index, columns, aggfunc='sum',
    fill_value)]: the sums are spread over the grid of the row labels
    and the column labels that occur, and a combination without a sum
    receives [fill_value]. The labels are the observed ones; a pandas
    version that also lists the unobserved categories of a categorical
    column adds columns that hold [fill_value] only. *)
Definition pivot_table (fill_value : Q) (t : list A) : pivot R C :=
  let a := agged t in
  let idx := ordenar rleb (unique reqb (map (fun e => fst (fst e)) a)) in
  let cols := ordenar cleb (unique ceqb (map (fun e => snd (fst e)) a)) in
  {| pv_index := idx;
     pv_columns := cols;
     pv_cells := map (fun i => map (entrada fill_value a i) cols) idx |}.

(** [table.loc[i, c]] *)
Definition posicao {K : Type} (keqb : K -> K -> bool) (k : K) (l : list K)
  : option nat :=
  match find (fun e => keqb k (snd e)) (combine (seq 0 (length l)) l) with
  | Some (n, _) => Some n
  | None => None
  end.

Definition celula (p : pivot R C) (i : R) (c : C) : option Q :=
  match posicao reqb i (pv_index p), posicao ceqb c (pv_columns p) with
  | Some n, Some m =>
      match nth_error (pv_cells p) n with
      | Some linha => nth_error linha m
      | None => None
      end
  | _, _ => None
  end.

(** [table.values.sum()] *)
Definition soma_celulas (p : pivot R C) : Q :=
  Qsum (map Qsum (pv_cells p)).
End PivotTable.

(** Order of the labels of a categorical column: the order in which the
    categories were declared. *)
Definition cat_leb (labels : list string) (a b : string) : bool :=
  match posicao String.eqb a labels, posicao String.eqb b labels with
  | Some n, Some m => (n <=? m)%nat
  | Some _, None => true
  | None, _ => false
  end.

(** [notna()] of the price category of a row. *)
Definition tem_categoria (r : registro) : bool :=
  match price_category r with Some _ => true | None => false end.

Definition pivot_produto_regiao (df_processado : list registro)
  : pivot string string :=
  pivot_table (fun r => Some (product (tx r))) (fun r => Some (region (tx r)))
    revenue String.eqb String.leb String.eqb String.leb 0 df_processado.

Definition pivot_regiao_categoria (df_processado : list registro)
  : pivot string string :=
  pivot_table (fun r => Some (region (tx r))) price_category
    revenue String.eqb String.leb String.eqb (cat_leb price_labels) 0
    df_processado.

Definition analise_cruzada (df_processado : list registro)
  : pivot string string * pivot string string :=
  (pivot_produto_regiao df_processado, pivot_regiao_categoria df_processado).

(** ** identificar_padroes *)

(** [Series.quantile(q)] with linear interpolation between the two order
    statistics around position [(n - 1) * q]; NaN on an empty column. *)
Definition quantile (q : Q) (l : list Q) : float64 :=
  match ordenar Qle_bool l with
  | [] => NaN
  | (x :: _) as s =>
      let h := inject_Z (Z.of_nat (length s - 1)) * q in
      let lo := Z.to_nat (Qfloor h) in
      let frac := h - inject_Z (Qfloor h) in
      let a := nth lo s x in
      let b := nth (Nat.min (lo + 1) (length s - 1)) s x in
      Fin (a + (b - a) * frac)
  end.

Definition Q1 (df_processado : list registro) : float64 :=
  quantile (25 # 100) (map revenue df_processado).

Definition Q3 (df_processado : list registro) : float64 :=
  quantile (75 # 100) (map revenue df_processado).

Definition IQR (df_processado : list registro) : float64 :=
  fsub (Q3 df_processado) (Q1 df_processado).

Definition limite_inferior (df_processado : list registro) : float64 :=
  fsub (Q1 df_processado) (fmul (Fin (15 # 10)) (IQR df_processado)).

Definition limite_superior (df_processado : list registro) : float64 :=
  fadd (Q3 df_processado) (fmul (Fin (15 # 10)) (IQR df_processado)).

Definition outliers (df_processado : list registro) : list registro :=
  filter (fun r =>
            flt (Fin (revenue r)) (limite_inferior df_processado)
            || flt (limite_superior df_processado) (Fin (revenue r)))
         df_processado.

(** [groupby('product')['revenue'].mean().sort_values(ascending=False)] *)
Definition ticket_medio_produto (argsort : list float64 -> list nat)
  (df_processado : list registro) : list (string * float64) :=
  sort_values_desc argsort (fun v => v)
    (map (fun '(k, g) => (k, mean (map revenue g)))
         (groupby (fun r => product (tx r)) String.eqb String.leb
            df_processado)).

(** [groupby('region')['margin_percent'].mean()
    .sort_values(ascending=False)] *)
Definition margem_regiao (argsort : list float64 -> list nat)
  (df_processado : list registro) : list (string * float64) :=
  sort_values_desc argsort (fun v => v)
    (map (fun '(k, g) => (k, mean (map margin_percent g)))
         (groupby (fun r => region (tx r)) String.eqb String.leb
            df_processado)).

(** [groupby('week_number')['revenue'].sum()] *)
Definition vendas_semana (df_processado : list registro) : list (Z * Q) :=
  map (fun '(k, g) => (k, Qsum (map revenue g)))
      (groupby week_number Z.eqb Z.leb df_processado).

Definition crescimento_semanal (df_processado : list registro) : float64 :=
  crescimento_medio (map snd (vendas_semana df_processado)).

(** The insights that [identificar_padroes] appends. The per-product and
    per-region means ([ticket_medio_produto], [margem_regiao]), the weekly
    growth and the correlation matrix are only printed. *)
Definition identificar_padroes (df_processado : list registro)
  : list insight :=
  let n := length (outliers df_processado) in
  if (0 <? n)%nat then [VendasAtipicas n] else [].

(** ** The growth statistic as the specification words it *)

(** The successive (prior, current) pairs of a series. *)
Definition pares (x : list Q) : list (Q * Q) := combine x (tl x).

(** The relative change of one pair, as [pct_change] computes it. *)
Definition variacao (p : Q * Q) : float64 :=
  fsub (fdiv (Fin (snd p)) (Fin (fst p))) (Fin 1).

(** The plain mean of a list that holds no NaN. *)
Definition media (l : list float64) : float64 :=
  match l with
  | [] => NaN
  | _ => fdiv (fsum l) (of_nat (length l))
  end.

(** The statistic in the words of the specification: every pair whose
    prior value is zero is left out of the mean. *)
Definition crescimento_spec (x : list Q) : float64 :=
  fmul (media (map variacao
                   (filter (fun p => negb (Qeq_bool (fst p) 0)) (pares x))))
       (Fin 100).

(** ** The revenue column at machine level

    [df['revenue'] = df['price'] * df['quantity']] (analise_avancada.py
    line 80, analise.py line 24) multiplies two numeric columns of the
    same frame element by element, in the dtype that numpy gives the
    result: int64 when both columns are int64, float64 otherwise. *)

(** binary64: 53 bits of precision, exponents below 1024. *)
Definition prec : Z := 53.
Definition emax : Z := 1024.

(** A numeric column with its dtype. An int64 cell is an integer of
    [[-2^63, 2^63)]; a float64 cell is a binary64 number, and a cell that
    is missing in the file is NaN. *)
Inductive Series : Type :=
| Int64 (values : list Z)
| Float64 (values : list spec_float).


(** The int64 that holds the low 64 bits of [z] in two's complement. *)
Definition int64_wrap (z : Z) : Z :=
  ((z + 2 ^ 63) mod 2 ^ 64 - 2 ^ 63)%Z.

(** The float64 nearest to an int64, ties to even. *)
Definition float64_of_int64 (n : Z) : spec_float :=
  binary_normalize prec emax n 0 false.

(** [s.astype('float64')] *)
Definition astype_float64 (s : Series) : list spec_float :=
  match s with
  | Int64 xs => map float64_of_int64 xs
  | Float64 xs => xs
  end.

(** [a * b] on two columns of one frame. *)
Definition series_mul (a b : Series) : Series :=
  match a, b with
  | Int64 xs, Int64 ys =>
      Int64 (map (fun '(x, y) => int64_wrap (x * y)) (combine xs ys))
  | _, _ =>
      Float64 (map (fun '(x, y) => SFmul prec emax x y)
                   (combine (astype_float64 a) (astype_float64 b)))
  end.

(** The number that a binary64 value denotes, as a reduced fraction. *)
Definition valor (x : spec_float) : float64 :=
  match x with
  | S754_zero _ => Fin 0
  | S754_infinity s => if s then NInf else PInf
  | S754_nan => NaN
  | S754_finite s m e =>
      Fin (Qred (inject_Z (if s then Z.neg m else Z.pos m) * 2 ^ e))
  end.

(** The numbers that the cells of a column denote. *)
Definition valores (s : Series) : list float64 :=
  match s with
  | Int64 xs => map of_Z xs
  | Float64 xs => map valor xs
  end.

(** 0.1 as [read_csv] reads it: 0x1.999999999999ap-4. *)
Definition um_decimo : spec_float :=
  S754_finite false 7205759403792794 (-56).

(** ** A small table

    Two equal rows, a product sold once, a day without sales
    (2024-01-03) and a price above the last price edge. Day 19723 is
    2024-01-01. *)

(** A row dated on day [d] with no time of day, and a row dated on day
    [d] at [h] o'clock. *)
Definition linha (d : Z) (p g : string) (x : Q) (q : Z) : Csv.row :=
  Csv.mk_row (Some (meia_noite d)) (Some p) (Some g) (Some x) (Some q).

Definition linha_as (d h : Z) (p g : string) (x : Q) (q : Z) : Csv.row :=
  Csv.mk_row (Some (meia_noite d + h * NS_POR_HORA)%Z) (Some p) (Some g)
             (Some x) (Some q).

Definition csv_exemplo : list Csv.row :=
  [linha 19723 "A" "North" 100 2;
   linha 19723 "A" "North" 100 2;
   linha 19724 "B" "South" 50 1;
   linha 19726 "A" "South" 250 1].

Definition tabela_exemplo : list registro :=
  preparar_dados (fun _ => 40) csv_exemplo.

(** The two worked examples of the specification: a table with a repeated
    row, and a table whose revenues are 10, 10, 10, 10 and 1000. *)
Definition csv_duplicado : list Csv.row :=
  [linha 19723 "A" "North" 100 2;
   linha 19723 "A" "North" 100 2;
   linha 19724 "B" "South" 50 1].

Definition csv_atipico : list Csv.row :=
  [linha 19723 "A" "North" 10 1;
   linha 19724 "A" "North" 10 1;
   linha 19725 "A" "North" 10 1;
   linha 19726 "A" "North" 10 1;
   linha 19727 "A" "North" 1000 1].

(** A file whose dates carry a time of day: 300 sold on 2024-01-01 at
    10:00 and 50 on 2024-01-03 at 09:00. *)
Definition csv_com_hora : list Csv.row :=
  [linha_as 19723 10 "A" "North" 100 3;
   linha_as 19725 9 "B" "South" 50 1].

(** * Properties *)

(** ** The worked examples *)

Example exemplo_duplicado_receita :
  map revenue (preparar_dados (fun _ => 40) csv_duplicado) = [200; 50].
Proof. reflexivity. Qed.

Example exemplo_duplicado_produto_A :
  exists tab ins row,
    analise_por_produto argsort_estavel
      (preparar_dados (fun _ => 40) csv_duplicado)
    = inr (tab, ins) /\
    loc String.eqb "A"%string tab = Some row /\
    Produto.num_vendas row = Fin 1 /\
    Produto.faturamento_total row = Fin 200.
Proof.
  eexists _, _, _. split; [vm_compute; reflexivity|].
  split; [reflexivity|]. split; reflexivity.
Qed.

Example exemplo_duplicado_diario :
  exists res ins,
    analise_temporal (preparar_dados (fun _ => 40) csv_duplicado)
    = inr (res, ins) /\
    map (fun e => (fst e, Diario.revenue (snd e))) (vendas_diarias res)
    = [(meia_noite 19723, 200); (meia_noite 19724, 50)].
Proof.
  eexists _, _. split; [vm_compute; reflexivity | reflexivity].
Qed.

Example exemplo_atipico :
  map revenue (preparar_dados (fun _ => 40) csv_atipico)
  = [10; 10; 10; 10; 1000] /\
  map revenue (outliers (preparar_dados (fun _ => 40) csv_atipico)) = [1000].
Proof. split; vm_compute; reflexivity. Qed.

Example exemplo_com_hora :
  map day_of_week (preparar_dados (fun _ => 40) csv_com_hora)
  = ["Monday"; "Wednesday"]%string /\
  map (fun r => hora_do_dia (date (tx r)))
      (preparar_dados (fun _ => 40) csv_com_hora)
  = [(10 * NS_POR_HORA)%Z; (9 * NS_POR_HORA)%Z].
Proof. split; reflexivity. Qed.

Example exemplo_calendario :
  civil_from_days 19723 = (2024%Z, 1%Z, 1%Z) /\
  day_name 19723 = "Monday"%string /\
  iso_week 19723 = 1%Z /\
  iso_week (days_from_civil 2021 1 1) = 53%Z.
Proof. repeat split. Qed.

(** ** Lists: sorting and distinct values *)

Lemma inserir_perm {A : Type} (leb : A -> A -> bool) (x : A) (l : list A) :
  Permutation (inserir leb x l) (x :: l).
Proof.
  induction l as [|y l IH]; simpl.
  - apply Permutation_refl.
  - destruct (leb x y).
    + apply Permutation_refl.
    + eapply perm_trans; [apply perm_skip, IH | apply perm_swap].
Qed.

Lemma ordenar_perm {A : Type} (leb : A -> A -> bool) (l : list A) :
  Permutation (ordenar leb l) l.
Proof.
  induction l as [|x l IH]; simpl.
  - constructor.
  - eapply perm_trans; [apply inserir_perm | apply perm_skip, IH].
Qed.

Lemma ordenar_In {A : Type} (leb : A -> A -> bool) (l : list A) (x : A) :
  In x (ordenar leb l) <-> In x l.
Proof.
  split; apply Permutation_in;
    [apply ordenar_perm | apply Permutation_sym, ordenar_perm].
Qed.

Lemma ordenar_nil_inv {A : Type} (leb : A -> A -> bool) (l : list A) :
  ordenar leb l = [] -> l = [].
Proof.
  intros H. apply Permutation_nil.
  rewrite <- H. apply ordenar_perm.
Qed.

(** ** Sorting by value *)

Section InserirSorted.
Context {A : Type} (leb : A -> A -> bool) (P : A -> Prop).
Hypothesis leb_total :
  forall a b, P a -> P b -> leb a b = false -> leb b a = true.
Hypothesis leb_trans :
  forall a b c, P a -> P b -> P c ->
                leb a b = true -> leb b c = true -> leb a c = true.

Lemma inserir_sorted (x : A) (l : list A) :
  P x -> Forall P l ->
  StronglySorted (fun a b => leb a b = true) l ->
  StronglySorted (fun a b => leb a b = true) (inserir leb x l).
Proof.
  intros Hx HP Hs. induction Hs as [|y l Hs IH Hy]; simpl.
  - constructor; constructor.
  - inversion HP as [|? ? Py Pl]; subst.
    destruct (leb x y) eqn:E.
    + constructor; [now constructor|]. constructor; [exact E|].
      rewrite Forall_forall in *. intros z Hz.
      apply (leb_trans x y z); auto.
    + constructor; [now apply IH|].
      apply Forall_forall. intros z Hz.
      apply (Permutation_in _ (inserir_perm leb x l)) in Hz.
      destruct Hz as [<- | Hz]; [now apply leb_total|].
      rewrite Forall_forall in Hy. auto.
Qed.

Lemma ordenar_sorted (l : list A) :
  Forall P l -> StronglySorted (fun a b => leb a b = true) (ordenar leb l).
Proof.
  induction 1 as [|x l Hx Hl IH]; simpl; [constructor|].
  apply inserir_sorted; [exact Hx | | exact IH].
  apply Forall_forall. intros z Hz. apply ordenar_In in Hz.
  rewrite Forall_forall in Hl. auto.
Qed.
End InserirSorted.

Lemma Qltb_lt (x y : Q) : Qltb x y = true <-> x < y.
Proof.
  unfold Qltb. rewrite negb_true_iff. split.
  - intros H. apply Qnot_le_lt. intros Hle.
    apply Qle_bool_iff in Hle. congruence.
  - intros H. destruct (Qle_bool y x) eqn:E; [|reflexivity].
    apply Qle_bool_iff in E. exfalso. exact (Qlt_not_le _ _ H E).
Qed.

Lemma Qltb_ge (x y : Q) : Qltb x y = false <-> y <= x.
Proof.
  unfold Qltb. rewrite negb_false_iff. apply Qle_bool_iff.
Qed.

(** On values without NaN, "not greater" is a total preorder. *)
Lemma flt_total (a b : float64) :
  negb (flt b a) = false -> negb (flt a b) = true.
Proof.
  rewrite negb_false_iff, negb_true_iff.
  destruct a, b; simpl; try discriminate; try reflexivity.
  rewrite Qltb_lt, Qltb_ge. apply Qlt_le_weak.
Qed.

Lemma flt_trans (a b c : float64) :
  isnan a = false -> isnan b = false -> isnan c = false ->
  negb (flt b a) = true -> negb (flt c b) = true -> negb (flt c a) = true.
Proof.
  rewrite !negb_true_iff.
  destruct a, b, c; simpl; try discriminate; try reflexivity.
  rewrite !Qltb_ge. intros _ _ _. apply Qle_trans.
Qed.

Lemma take_seq {A : Type} (pre l : list A) :
  take (pre ++ l) (seq (length pre) (length l)) = l.
Proof.
  revert pre. induction l as [|x l IH]; intros pre; [reflexivity|].
  cbn [length seq]. unfold take. cbn [flat_map].
  rewrite nth_error_app2 by lia. rewrite Nat.sub_diag. cbn [nth_error app].
  f_equal. specialize (IH (pre ++ [x])).
  rewrite <- app_assoc, length_app in IH. cbn [length app] in IH.
  rewrite Nat.add_1_r in IH. exact IH.
Qed.

(** Taking every position once rearranges the frame. *)
Lemma take_perm {A : Type} (l : list A) (indexer : list nat) :
  Permutation indexer (seq 0 (length l)) -> Permutation (take l indexer) l.
Proof.
  intros H. eapply perm_trans; [apply Permutation_flat_map, H|].
  fold (take l (seq 0 (length l))).
  now rewrite (take_seq [] l : take l (seq 0 (length l)) = l).
Qed.

Lemma filter_split_perm {A : Type} (f : A -> bool) (l : list A) :
  Permutation (filter (fun x => negb (f x)) l ++ filter f l) l.
Proof.
  induction l as [|x l IH]; [constructor|]. cbn [filter].
  destruct (f x); cbn [negb app].
  - apply Permutation_sym, Permutation_cons_app, Permutation_sym, IH.
  - now apply perm_skip.
Qed.

(** Sorting by value rearranges the rows and neither adds nor drops
    one, whichever valid sort is used. *)
Lemma sort_values_desc_perm {K V : Type} (argsort : list float64 -> list nat)
  (col : V -> float64) (frame : list (K * V)) :
  argsort_ok argsort ->
  Permutation (sort_values_desc argsort col frame) frame.
Proof.
  intros Hok. unfold sort_values_desc.
  set (non_nan := rev (filter (fun e => negb (isnan (col (snd e)))) frame)).
  destruct (Hok (map (fun e => col (snd e)) non_nan)) as [Hperm _].
  { apply Forall_forall. intros v Hv. apply in_map_iff in Hv.
    destruct Hv as (e & <- & He). unfold non_nan in He.
    apply in_rev, filter_In in He. destruct He as [_ He].
    now apply negb_true_iff in He. }
  rewrite length_map in Hperm.
  eapply perm_trans; [|apply (filter_split_perm
                                (fun e => isnan (col (snd e))) frame)].
  apply Permutation_app_tail.
  eapply perm_trans; [apply Permutation_sym, Permutation_rev|].
  eapply perm_trans; [apply take_perm, Hperm|].
  unfold non_nan. apply Permutation_sym, Permutation_rev.
Qed.

Lemma sort_values_desc_In {K V : Type} (argsort : list float64 -> list nat)
  (col : V -> float64) (frame : list (K * V)) (e : K * V) :
  argsort_ok argsort ->
  In e (sort_values_desc argsort col frame) <-> In e frame.
Proof.
  intros Hok. split; apply Permutation_in;
    [|apply Permutation_sym]; now apply sort_values_desc_perm.
Qed.

Lemma sort_values_desc_nil_inv {K V : Type}
  (argsort : list float64 -> list nat) (col : V -> float64)
  (frame : list (K * V)) :
  argsort_ok argsort -> sort_values_desc argsort col frame = [] -> frame = [].
Proof.
  intros Hok H. apply Permutation_nil. rewrite <- H.
  now apply sort_values_desc_perm.
Qed.

Lemma map_fst_combine {A B : Type} (l : list A) (l' : list B) :
  length l = length l' -> map fst (combine l l') = l.
Proof.
  revert l'. induction l as [|x l IH]; intros [|y l'] H; try discriminate;
    [reflexivity|].
  simpl. f_equal. apply IH. now inversion H.
Qed.

Lemma combine_seq_nth (x : list float64) (s : nat) (p : nat * float64) :
  In p (combine (seq s (length x)) x) -> nth (fst p - s) x NaN = snd p.
Proof.
  destruct p as [i w]. cbn [fst snd].
  revert s. induction x as [|v x IH]; intros s H; [contradiction|].
  cbn [length seq combine] in H. destruct H as [E | H].
  - inversion E; subst. now rewrite Nat.sub_diag.
  - assert (Hs : (S s <= i)%nat).
    { apply in_combine_l, in_seq in H. lia. }
    specialize (IH (S s) H).
    replace (i - s)%nat with (S (i - S s)) by lia. exact IH.
Qed.

(** The stable insertion sort is a valid [argsort]. *)
Lemma argsort_estavel_ok : argsort_ok argsort_estavel.
Proof.
  intros x Hx. unfold argsort_estavel.
  set (leb := fun a b : nat * float64 => negb (flt (snd b) (snd a))).
  set (pares := combine (seq 0 (length x)) x).
  split.
  - eapply perm_trans; [apply Permutation_map, ordenar_perm|].
    unfold pares. rewrite map_fst_combine; [reflexivity|].
    apply length_seq.
  - assert (Hs : StronglySorted (fun a b => leb a b = true)
                   (ordenar leb pares)).
    { apply (ordenar_sorted leb (fun p => isnan (snd p) = false)).
      - intros a b _ _. apply flt_total.
      - intros a b c Ha Hb Hc. now apply flt_trans.
      - apply Forall_forall. intros [i v] Hp. unfold pares in Hp.
        apply in_combine_r in Hp. rewrite Forall_forall in Hx.
        cbn [snd]. auto. }
    assert (Hn : Forall (fun p => nth (fst p) x NaN = snd p)
                   (ordenar leb pares)).
    { apply Forall_forall. intros p Hp. apply ordenar_In in Hp.
      unfold pares in Hp. apply combine_seq_nth in Hp.
      now rewrite Nat.sub_0_r in Hp. }
    induction Hs as [|p l Hs IH Hp]; [constructor|].
    inversion Hn as [|? ? Hp0 Hl]; subst. cbn [map].
    constructor; [now apply IH|].
    apply Forall_forall. intros j Hj. apply in_map_iff in Hj.
    destruct Hj as (q & <- & Hq). rewrite Forall_forall in Hp, Hl.
    rewrite Hp0, (Hl q Hq). specialize (Hp q Hq). unfold leb in Hp.
    now apply negb_true_iff in Hp.
Qed.

Lemma flt_nan_r (x : float64) : flt x NaN = false.
Proof. now destruct x. Qed.

Lemma StronglySorted_app {A : Type} (R : A -> A -> Prop) (l1 l2 : list A) :
  StronglySorted R l1 -> StronglySorted R l2 ->
  (forall a b, In a l1 -> In b l2 -> R a b) ->
  StronglySorted R (l1 ++ l2).
Proof.
  induction 1 as [|x l1 Hs IH Hx]; intros H2 H; simpl; [exact H2|].
  constructor.
  - apply IH; [exact H2|]. intros a b Ha Hb. apply H; [now right | exact Hb].
  - apply Forall_app. split; [exact Hx|].
    apply Forall_forall. intros b Hb. apply H; [now left | exact Hb].
Qed.

Lemma StronglySorted_rev {A : Type} (R : A -> A -> Prop) (l : list A) :
  StronglySorted (fun a b => R b a) l -> StronglySorted R (rev l).
Proof.
  induction 1 as [|x l Hs IH Hx]; simpl; [constructor|].
  apply StronglySorted_app; [exact IH | repeat constructor|].
  intros a b Ha [<- | []]. rewrite Forall_forall in Hx.
  apply Hx. now apply in_rev.
Qed.

Lemma take_In {A : Type} (l : list A) (indexer : list nat) (b : A) :
  In b (take l indexer) ->
  exists j, In j indexer /\ nth_error l j = Some b.
Proof.
  unfold take. rewrite in_flat_map. intros (j & Hj & Hb).
  exists j. split; [exact Hj|].
  destruct (nth_error l j) as [r|]; [|contradiction].
  destruct Hb as [<- | []]. reflexivity.
Qed.

Lemma nth_map_val {A : Type} (val : A -> float64) (l : list A) (j : nat)
  (b : A) :
  nth_error l j = Some b -> nth j (map val l) NaN = val b.
Proof.
  revert j. induction l as [|a l IH]; intros [|j] H; try discriminate.
  - simpl in *. congruence.
  - simpl in *. now apply IH.
Qed.

(** Rows taken at positions whose values ascend are in ascending
    order. *)
Lemma take_sorted {A : Type} (val : A -> float64) (l : list A)
  (indexer : list nat) :
  StronglySorted
    (fun i j => flt (nth j (map val l) NaN) (nth i (map val l) NaN) = false)
    indexer ->
  StronglySorted (fun a b => flt (val b) (val a) = false) (take l indexer).
Proof.
  induction 1 as [|i idx Hs IH Hi]; [constructor|].
  change (take l (i :: idx))
    with ((match nth_error l i with Some r => [r] | None => [] end)
          ++ take l idx).
  destruct (nth_error l i) as [r|] eqn:Er; [|exact IH].
  cbn [app]. constructor; [exact IH|].
  apply Forall_forall. intros b Hb. apply take_In in Hb.
  destruct Hb as (j & Hj & Eb). rewrite Forall_forall in Hi.
  specialize (Hi j Hj).
  now rewrite (nth_map_val val l j b Eb), (nth_map_val val l i r Er) in Hi.
Qed.

(** The sorted frame is in descending order of the column, with the NaN
    values last, whichever valid sort is used. *)
Lemma sort_values_desc_sorted {K V : Type}
  (argsort : list float64 -> list nat) (col : V -> float64)
  (frame : list (K * V)) :
  argsort_ok argsort ->
  StronglySorted (fun a b => flt (col (snd a)) (col (snd b)) = false)
                 (sort_values_desc argsort col frame).
Proof.
  intros Hok. unfold sort_values_desc.
  set (non_nan := rev (filter (fun e => negb (isnan (col (snd e)))) frame)).
  destruct (Hok (map (fun e => col (snd e)) non_nan)) as [_ Hsorted].
  { apply Forall_forall. intros v Hv. apply in_map_iff in Hv.
    destruct Hv as (e & <- & He). unfold non_nan in He.
    apply in_rev, filter_In in He. destruct He as [_ He].
    now apply negb_true_iff in He. }
  assert (Hnan : forall b, In b (filter (fun e => isnan (col (snd e))) frame)
                           -> col (snd b) = NaN).
  { intros b Hb. apply filter_In in Hb. destruct Hb as [_ Hb].
    now destruct (col (snd b)). }
  apply StronglySorted_app.
  - apply StronglySorted_rev.
    exact (take_sorted (fun e => col (snd e)) non_nan _ Hsorted).
  - induction (filter (fun e => isnan (col (snd e))) frame) as [|b l IH];
      constructor.
    + apply IH. intros c Hc. apply Hnan. now right.
    + apply Forall_forall. intros c Hc.
      rewrite (Hnan c) by now right. apply flt_nan_r.
  - intros a b _ Hb. rewrite (Hnan b Hb). apply flt_nan_r.
Qed.

Section UniqueFacts.
Context {K : Type} (keqb : K -> K -> bool).
Hypothesis keqb_refl : forall k, keqb k k = true.

Lemma unique_from_fresh (seen l : list K) (x : K) :
  In x (unique_from keqb seen l) ->
  In x l /\ existsb (keqb x) seen = false.
Proof.
  revert seen. induction l as [|k l IH]; simpl; intros seen H.
  - contradiction.
  - destruct (existsb (keqb k) seen) eqn:E.
    + destruct (IH _ H) as [H1 H2]. auto.
    + destruct H as [<- | H]; [auto|].
      destruct (IH _ H) as [H1 H2]. simpl in H2.
      apply orb_false_iff in H2. tauto.
Qed.

Lemma unique_from_NoDup (seen l : list K) :
  NoDup (unique_from keqb seen l).
Proof.
  revert seen. induction l as [|k l IH]; simpl; intros seen.
  - constructor.
  - destruct (existsb (keqb k) seen); [apply IH|].
    constructor; [|apply IH].
    intros H. apply unique_from_fresh in H. destruct H as [_ H].
    simpl in H. rewrite keqb_refl in H. discriminate.
Qed.

Lemma unique_NoDup (l : list K) : NoDup (unique keqb l).
Proof. apply unique_from_NoDup. Qed.
End UniqueFacts.

Section UniqueEq.
Context {K : Type} (keqb : K -> K -> bool).
Hypothesis keqb_eq : forall a b, keqb a b = true <-> a = b.

Lemma existsb_keqb (x : K) (l : list K) :
  existsb (keqb x) l = true <-> In x l.
Proof.
  rewrite existsb_exists. split.
  - intros [y [Hy E]]. apply keqb_eq in E. now subst.
  - intros H. exists x. split; [assumption | now apply keqb_eq].
Qed.

Lemma unique_from_In (seen l : list K) (x : K) :
  In x (unique_from keqb seen l) <-> In x l /\ ~ In x seen.
Proof.
  revert seen. induction l as [|k l IH]; simpl; intros seen.
  - tauto.
  - destruct (existsb (keqb k) seen) eqn:E.
    + rewrite IH. apply existsb_keqb in E.
      split; [tauto|]. intros [[<- | H] Hn]; [contradiction | tauto].
    + assert (Hk : ~ In k seen).
      { intros H. apply existsb_keqb in H. congruence. }
      simpl. rewrite IH. simpl. split.
      * intros [<- | [H1 H2]]; tauto.
      * intros [[<- | H1] H2]; [now left|].
        destruct (keqb k x) eqn:Ekx.
        -- apply keqb_eq in Ekx. tauto.
        -- right. split; [assumption|]. intros [-> | H3]; [|tauto].
           assert (keqb x x = true) by now apply keqb_eq. congruence.
Qed.

Lemma unique_In (l : list K) (x : K) : In x (unique keqb l) <-> In x l.
Proof. unfold unique. rewrite unique_from_In. simpl. tauto. Qed.

Lemma loc_None {V : Type} (k : K) (frame : list (K * V)) :
  ~ In k (map fst frame) -> loc keqb k frame = None.
Proof.
  induction frame as [|[k' v] frame IH]; simpl; intros H; [reflexivity|].
  destruct (keqb k k') eqn:E.
  - apply keqb_eq in E. exfalso. apply H. left. congruence.
  - apply IH. tauto.
Qed.

Lemma loc_In {V : Type} (k : K) (v : V) (frame : list (K * V)) :
  loc keqb k frame = Some v -> In (k, v) frame.
Proof.
  induction frame as [|[k' v'] frame IH]; simpl; intros H; [discriminate|].
  destruct (keqb k k') eqn:E.
  - apply keqb_eq in E. left. congruence.
  - right. auto.
Qed.
Lemma loc_Some {V : Type} (k : K) (v : V) (frame : list (K * V)) :
  NoDup (map fst frame) -> In (k, v) frame -> loc keqb k frame = Some v.
Proof.
  induction frame as [|[k' v'] frame IH]; simpl; intros Hnd Hin;
    [contradiction|].
  inversion Hnd as [|? ? Hk Hnd']; subst.
  destruct Hin as [E | Hin].
  - inversion E; subst.
    assert (H : keqb k k = true) by now apply keqb_eq.
    now rewrite H.
  - destruct (keqb k k') eqn:E; [|auto].
    apply keqb_eq in E. subst k'. exfalso. apply Hk.
    apply in_map_iff. now exists (k, v).
Qed.
End UniqueEq.

Lemma reindex_labels {K V : Type} (keqb : K -> K -> bool) (labels : list K)
  (fill : V) (frame : list (K * V)) :
  map fst (reindex keqb labels fill frame) = labels.
Proof.
  unfold reindex. rewrite map_map. simpl. apply map_id.
Qed.

Lemma reindex_In {K V : Type} (keqb : K -> K -> bool) (labels : list K)
  (fill : V) (frame : list (K * V)) (k : K) (v : V) :
  In (k, v) (reindex keqb labels fill frame) ->
  loc keqb k frame = Some v \/ (loc keqb k frame = None /\ v = fill).
Proof.
  unfold reindex. rewrite in_map_iff. intros (k' & Eq & _).
  inversion Eq; subst k'. destruct (loc keqb k frame); auto.
Qed.

(** ** Groups *)

Section GroupbyFacts.
Context {A K : Type} (key : A -> K) (keqb kleb : K -> K -> bool).
Hypothesis keqb_eq : forall a b, keqb a b = true <-> a = b.

Lemma chaves_In (t : list A) (k : K) :
  In k (chaves key keqb kleb t) <-> In k (map key t).
Proof.
  unfold chaves. rewrite ordenar_In. now apply unique_In.
Qed.

Lemma chaves_NoDup (t : list A) : NoDup (chaves key keqb kleb t).
Proof.
  unfold chaves.
  eapply Permutation_NoDup; [apply Permutation_sym, ordenar_perm|].
  apply unique_NoDup. intros k. now apply keqb_eq.
Qed.

Lemma groupby_labels (t : list A) :
  map fst (groupby key keqb kleb t) = chaves key keqb kleb t.
Proof.
  unfold groupby. rewrite map_map. simpl. apply map_id.
Qed.

Lemma groupby_agg_labels {V : Type} (F : list A -> V) (t : list A) :
  map fst (map (fun '(k, g) => (k, F g)) (groupby key keqb kleb t))
  = chaves key keqb kleb t.
Proof.
  rewrite map_map, <- groupby_labels. apply map_ext. now intros [k g].
Qed.

Lemma groupby_In (t : list A) (k : K) (g : list A) :
  In (k, g) (groupby key keqb kleb t) <->
  In k (map key t) /\ g = grupo key keqb k t.
Proof.
  unfold groupby. rewrite in_map_iff. split.
  - intros [k' [E H]]. inversion E; subst.
    split; [now apply chaves_In | reflexivity].
  - intros [H ->]. exists k. split; [reflexivity | now apply chaves_In].
Qed.

Lemma grupo_In (t : list A) (k : K) (r : A) :
  In r (grupo key keqb k t) <-> In r t /\ key r = k.
Proof.
  unfold grupo. rewrite filter_In. now rewrite keqb_eq.
Qed.

Lemma groupby_nil_inv (t : list A) :
  groupby key keqb kleb t = [] -> t = [].
Proof.
  intros H. destruct t as [|r t]; [reflexivity|].
  assert (Hk : In (key r) (chaves key keqb kleb (r :: t))).
  { apply chaves_In. now left. }
  rewrite <- groupby_labels, H in Hk. contradiction.
Qed.
End GroupbyFacts.

(** ** Data preparation *)

Lemma enriquecer_from_inv (uniform : nat -> Q) (vs : list venda) :
  forall (i : nat) (ma7 : list float64) (e : registro),
    In e (enriquecer_from uniform i vs ma7) ->
    exists j v m, e = enriquecer uniform j v m /\ In v vs.
Proof.
  induction vs as [|v vs IH]; simpl; intros i ma7 e H; [contradiction|].
  destruct ma7 as [|m ma7]; [contradiction|].
  destruct H as [<- | H].
  - exists i, v, m. auto.
  - destruct (IH _ _ _ H) as (j & v' & m' & E & Hin).
    exists j, v', m'. auto.
Qed.

(** ** Sums over labels *)

Lemma Qsum_map_ext {X : Type} (f g : X -> Q) (l : list X) :
  (forall x, In x l -> f x == g x) -> Qsum (map f l) == Qsum (map g l).
Proof.
  induction l as [|x l IH]; intros H; simpl; [reflexivity|].
  rewrite (H x (or_introl eq_refl)), IH; [reflexivity|].
  intros y Hy. apply H. now right.
Qed.

Lemma Qsum_map_plus {X : Type} (f g : X -> Q) (l : list X) :
  Qsum (map (fun x => f x + g x) l) == Qsum (map f l) + Qsum (map g l).
Proof.
  induction l as [|x l IH]; simpl; [reflexivity|]. rewrite IH. ring.
Qed.

Lemma Qsum_map_zero {X : Type} (l : list X) :
  Qsum (map (fun _ => 0) l) == 0.
Proof.
  induction l as [|x l IH]; simpl; [reflexivity|]. rewrite IH. ring.
Qed.

Section Indicator.
Context {K : Type} (keqb : K -> K -> bool).
Hypothesis keqb_eq : forall a b, keqb a b = true <-> a = b.

Lemma keqb_refl (k : K) : keqb k k = true.
Proof. now apply keqb_eq. Qed.

Lemma keqb_neq (a b : K) : a <> b -> keqb a b = false.
Proof.
  intros H. destruct (keqb a b) eqn:E; [|reflexivity].
  apply keqb_eq in E. contradiction.
Qed.

Lemma Qsum_indicator_absent (k0 : K) (f : K -> Q) (l : list K) :
  ~ In k0 l ->
  Qsum (map (fun k => if keqb k k0 then f k else 0) l) == 0.
Proof.
  induction l as [|k l IH]; simpl; intros H; [reflexivity|].
  rewrite keqb_neq by (intros ->; apply H; now left).
  rewrite IH by tauto. ring.
Qed.

(** Summing over distinct labels a function that vanishes away from
    [k0] leaves its value at [k0]. *)
Lemma Qsum_indicator (k0 : K) (f : K -> Q) (l : list K) :
  NoDup l -> In k0 l ->
  Qsum (map (fun k => if keqb k k0 then f k else 0) l) == f k0.
Proof.
  induction l as [|k l IH]; simpl; intros Hnd Hin; [contradiction|].
  inversion Hnd as [|? ? Hk Hnd']; subst.
  destruct Hin as [-> | Hin].
  - rewrite keqb_refl, Qsum_indicator_absent by assumption. ring.
  - rewrite keqb_neq by (intros ->; contradiction).
    rewrite IH by assumption. ring.
Qed.

(** The groups of a table split its sum. *)
Lemma Qsum_grupos {A : Type} (key : A -> K) (val : A -> Q)
  (ks : list K) (t : list A) :
  NoDup ks -> (forall r, In r t -> In (key r) ks) ->
  Qsum (map (fun k => Qsum (map val (grupo key keqb k t))) ks)
  == Qsum (map val t).
Proof.
  intros Hnd. induction t as [|a t IH]; intros Hks.
  - simpl. apply Qsum_map_zero.
  - rewrite (Qsum_map_ext _
               (fun k => (if keqb k (key a) then val a else 0)
                         + Qsum (map val (grupo key keqb k t)))).
    + rewrite Qsum_map_plus.
      rewrite (Qsum_indicator (key a) (fun _ => val a)).
      * rewrite IH; [reflexivity|]. intros r Hr. apply Hks. now right.
      * assumption.
      * apply Hks. now left.
    + intros k _. unfold grupo. cbn [filter].
      destruct (keqb (key a) k) eqn:E.
      * apply keqb_eq in E. subst k. rewrite keqb_refl. simpl. ring.
      * rewrite keqb_neq.
        -- ring.
        -- intros ->. rewrite keqb_refl in E. discriminate.
Qed.
End Indicator.

(** ** Temporal analysis *)

Lemma fold_min_le (d : Z) (l : list Z) :
  (fold_right Z.min d l <= d)%Z /\
  Forall (fun x => (fold_right Z.min d l <= x)%Z) l.
Proof.
  induction l as [|x l [IH1 IH2]]; simpl.
  - split; [lia | constructor].
  - split; [lia|]. constructor; [lia|].
    eapply Forall_impl; [|exact IH2]. simpl. intros; lia.
Qed.

Lemma fold_max_ge (d : Z) (l : list Z) :
  (d <= fold_right Z.max d l)%Z /\
  Forall (fun x => (x <= fold_right Z.max d l)%Z) l.
Proof.
  induction l as [|x l [IH1 IH2]]; simpl.
  - split; [lia | constructor].
  - split; [lia|]. constructor; [lia|].
    eapply Forall_impl; [|exact IH2]. simpl. intros; lia.
Qed.

Lemma fold_min_In (d : Z) (l : list Z) : In (fold_right Z.min d l) (d :: l).
Proof.
  induction l as [|x l IH]; simpl; [auto|].
  destruct (Z.min_spec x (fold_right Z.min d l)) as [[_ ->] | [_ ->]].
  - auto.
  - simpl in IH. tauto.
Qed.

Lemma fold_max_In (d : Z) (l : list Z) : In (fold_right Z.max d l) (d :: l).
Proof.
  induction l as [|x l IH]; simpl; [auto|].
  destruct (Z.max_spec x (fold_right Z.max d l)) as [[_ ->] | [_ ->]].
  - simpl in IH. tauto.
  - auto.
Qed.

Lemma date_min_spec (l : list Z) (m : Z) :
  date_min l = Some m -> In m l /\ forall x, In x l -> (m <= x)%Z.
Proof.
  destruct l as [|d l]; simpl; [discriminate|].
  intros E. inversion E; subst. split; [apply fold_min_In|].
  destruct (fold_min_le d l) as [H1 H2]. rewrite Forall_forall in H2.
  intros x [<- | Hx]; auto.
Qed.

Lemma date_max_spec (l : list Z) (m : Z) :
  date_max l = Some m -> In m l /\ forall x, In x l -> (x <= m)%Z.
Proof.
  destruct l as [|d l]; simpl; [discriminate|].
  intros E. inversion E; subst. split; [apply fold_max_In|].
  destruct (fold_max_ge d l) as [H1 H2]. rewrite Forall_forall in H2.
  intros x [<- | Hx]; auto.
Qed.

(** *** Days and timestamps *)

Lemma dia_de_meia_noite (d : Z) : dia_de (meia_noite d) = d.
Proof. unfold dia_de, meia_noite. now apply Z.div_mul. Qed.

Lemma hora_do_dia_meia_noite (d : Z) : hora_do_dia (meia_noite d) = 0%Z.
Proof. unfold hora_do_dia, meia_noite. now apply Z.mod_mul. Qed.

Lemma meia_noite_inj (a b : Z) : meia_noite a = meia_noite b -> a = b.
Proof.
  intros H. apply (f_equal dia_de) in H.
  now rewrite !dia_de_meia_noite in H.
Qed.

Lemma meia_noite_dia_de (ts : Z) :
  hora_do_dia ts = 0%Z -> ts = meia_noite (dia_de ts).
Proof.
  unfold hora_do_dia, dia_de, meia_noite. intros H.
  pose proof (Z.div_mod ts NS_POR_DIA) as E. rewrite H in E.
  rewrite E at 1 by discriminate. ring.
Qed.

Lemma dia_de_mono (a b : Z) : (a <= b)%Z -> (dia_de a <= dia_de b)%Z.
Proof. apply Z.div_le_mono. reflexivity. Qed.

Lemma dia_de_passo (ts i : Z) :
  dia_de (ts + i * NS_POR_DIA) = (dia_de ts + i)%Z.
Proof. unfold dia_de. now apply Z.div_add. Qed.

Lemma hora_do_dia_passo (ts i : Z) :
  hora_do_dia (ts + i * NS_POR_DIA) = hora_do_dia ts.
Proof. unfold hora_do_dia. now apply Z.mod_add. Qed.

Lemma date_range_length (a b : Z) :
  length (date_range a b) = Z.to_nat ((b - a) / NS_POR_DIA + 1).
Proof. unfold date_range. now rewrite length_map, length_seq. Qed.

Lemma date_range_nth (a b : Z) (i : nat) :
  (i < length (date_range a b))%nat ->
  nth i (date_range a b) 0%Z = (a + Z.of_nat i * NS_POR_DIA)%Z.
Proof.
  intros H. rewrite date_range_length in H. unfold date_range.
  rewrite nth_indep with (d' := (a + Z.of_nat 0 * NS_POR_DIA)%Z)
    by now rewrite length_map, length_seq.
  rewrite (map_nth (fun i => (a + Z.of_nat i * NS_POR_DIA)%Z)).
  now rewrite seq_nth.
Qed.

(** The labels of [date_range] step by whole days from [a] and stay at
    or before [b]. *)
Lemma date_range_In (a b ts : Z) :
  In ts (date_range a b) ->
  exists i : nat, ts = (a + Z.of_nat i * NS_POR_DIA)%Z /\ (ts <= b)%Z.
Proof.
  unfold date_range. rewrite in_map_iff. intros (i & <- & Hi).
  exists i. split; [reflexivity|]. apply in_seq in Hi.
  assert (Hq : (Z.of_nat i <= (b - a) / NS_POR_DIA)%Z) by lia.
  pose proof (Z.mul_div_le (b - a) NS_POR_DIA eq_refl) as Hm.
  assert (Hn : (Z.of_nat i * NS_POR_DIA
                <= (b - a) / NS_POR_DIA * NS_POR_DIA)%Z).
  { apply Z.mul_le_mono_nonneg_r; [discriminate | exact Hq]. }
  lia.
Qed.

Lemma dias_entre_In (a b d : Z) :
  In d (dias_entre a b) <-> (a <= d <= b)%Z.
Proof.
  unfold dias_entre. rewrite in_map_iff. split.
  - intros (i & <- & Hi). apply in_seq in Hi. lia.
  - intros H. exists (Z.to_nat (d - a)). split; [lia|].
    apply in_seq. lia.
Qed.

(** When the first timestamp is a midnight, the labels of [date_range]
    are the midnights of the calendar days from the first day to the
    last. *)
Lemma date_range_meia_noite (a b : Z) :
  hora_do_dia a = 0%Z ->
  date_range a b = map meia_noite (dias_entre (dia_de a) (dia_de b)).
Proof.
  intros H. unfold date_range, dias_entre. rewrite map_map.
  assert (Hn : ((b - a) / NS_POR_DIA + 1 = dia_de b - dia_de a + 1)%Z).
  { rewrite (meia_noite_dia_de a H) at 1. unfold meia_noite.
    replace (b - dia_de a * NS_POR_DIA)%Z
      with (b + (- dia_de a) * NS_POR_DIA)%Z by ring.
    rewrite Z.div_add by discriminate. unfold dia_de. ring. }
  rewrite Hn. apply map_ext. intros i.
  rewrite (meia_noite_dia_de a H) at 1. unfold meia_noite. ring.
Qed.

(** *** The resampled frame *)

Lemma inserir_Zleb_sorted (x : Z) (l : list Z) :
  StronglySorted Z.le l -> StronglySorted Z.le (inserir Z.leb x l).
Proof.
  induction 1 as [|y l Hs IH Hy]; simpl.
  - constructor; constructor.
  - destruct (Z.leb x y) eqn:E.
    + apply Z.leb_le in E. constructor; [now constructor|].
      constructor; [exact E|].
      eapply Forall_impl; [|exact Hy]. simpl. intros; lia.
    + apply Z.leb_gt in E. constructor; [exact IH|].
      apply Forall_forall. intros z Hz.
      apply (Permutation_in _ (inserir_perm Z.leb x l)) in Hz.
      destruct Hz as [<- | Hz]; [lia|].
      rewrite Forall_forall in Hy. auto.
Qed.

Lemma ordenar_Zleb_sorted (l : list Z) :
  StronglySorted Z.le (ordenar Z.leb l).
Proof.
  induction l as [|x l IH]; simpl; [constructor|].
  now apply inserir_Zleb_sorted.
Qed.

(** A sorted list runs from its least element to its greatest. *)
Lemma sorted_bounds (l : list Z) (d : Z) :
  StronglySorted Z.le l ->
  forall x, In x l -> (hd d l <= x <= last l d)%Z.
Proof.
  induction 1 as [|y l Hs IH Hy]; intros x Hx; [contradiction|].
  rewrite Forall_forall in Hy. cbn [hd].
  destruct l as [|z l].
  - destruct Hx as [<- | []]. simpl. lia.
  - change (last (y :: z :: l) d) with (last (z :: l) d).
    destruct Hx as [<- | Hx].
    + split; [lia|]. specialize (IH z (or_introl eq_refl)).
      specialize (Hy z (or_introl eq_refl)). lia.
    + specialize (IH x Hx). specialize (Hy x Hx). lia.
Qed.

Lemma sorted_last_indep (l : list Z) (d d' : Z) :
  l <> [] -> last l d = last l d'.
Proof.
  induction l as [|x l IH]; intros H; [congruence|].
  destruct l as [|y l]; [reflexivity|]. apply IH. discriminate.
Qed.

Lemma loc_map_inj {K V : Type} (f : Z -> K) (keqb : K -> K -> bool)
  (keqb_eq : forall a b, keqb a b = true <-> a = b)
  (f_inj : forall a b, f a = f b -> a = b) (F : Z -> V)
  (ds : list Z) (d : Z) :
  In d ds -> loc keqb (f d) (map (fun d => (f d, F d)) ds) = Some (F d).
Proof.
  induction ds as [|x ds IH]; intros H; [contradiction|]. cbn [map loc].
  destruct (keqb (f d) (f x)) eqn:E.
  - apply keqb_eq, f_inj in E. now subst.
  - destruct H as [-> | H]; [|auto].
    assert (keqb (f d) (f d) = true) by now apply keqb_eq. congruence.
Qed.

Lemma filter_map_key {V : Type} (P : Z -> bool) (G : Z -> V) (ks : list Z) :
  map snd (filter (fun e => P (fst e)) (map (fun k => (k, G k)) ks))
  = map G (filter P ks).
Proof.
  induction ks as [|k ks IH]; [reflexivity|]. cbn [map filter fst].
  destruct (P k); cbn [map snd]; now rewrite IH.
Qed.

Lemma por_data_as_map (t : list registro) :
  map (fun '(d, g) => (d, soma_diaria g))
      (groupby (fun r => date (tx r)) Z.eqb Z.leb t)
  = map (fun k => (k, soma_diaria
                        (grupo (fun r => date (tx r)) Z.eqb k t)))
        (chaves (fun r => date (tx r)) Z.eqb Z.leb t).
Proof. unfold groupby. now rewrite map_map. Qed.

Lemma fst_last_map {V : Type} (G : Z -> V) (l : list Z) (d0 : Z) (z : V) :
  fst (last (map (fun k => (k, G k)) l) (d0, z)) = last l d0.
Proof.
  induction l as [|x l IH]; [reflexivity|].
  destruct l as [|y l]; [reflexivity|]. exact IH.
Qed.

(** Every label of the resampled frame is a midnight. *)
Lemma resample_D_sum_labels (frame : list (Z * Diario.row)) (ts : Z) :
  In ts (map fst (resample_D_sum frame)) -> hora_do_dia ts = 0%Z.
Proof.
  unfold resample_D_sum. destruct frame as [|[t0 x0] rest];
    [contradiction|].
  rewrite map_map, in_map_iff. intros (d & <- & _). cbn [fst].
  apply hora_do_dia_meia_noite.
Qed.

(** The row of a day between two days of the frame holds the sum of the
    rows whose timestamp falls on that day. *)
Lemma resample_D_sum_loc (G : Z -> Diario.row) (ks : list Z) (d k1 k2 : Z) :
  StronglySorted Z.le ks -> In k1 ks -> In k2 ks ->
  (dia_de k1 <= d <= dia_de k2)%Z ->
  loc Z.eqb (meia_noite d) (resample_D_sum (map (fun k => (k, G k)) ks))
  = Some (soma_linhas (map G (filter (fun k => (dia_de k =? d)%Z) ks))).
Proof.
  intros Hs H1 H2 Hd.
  assert (Hb1 := sorted_bounds ks k1 Hs k1 H1).
  assert (Hb2 := sorted_bounds ks k2 Hs k2 H2).
  destruct ks as [|t0 ks']; [contradiction|].
  unfold resample_D_sum. cbn [map].
  change ((t0, G t0) :: map (fun k => (k, G k)) ks')
    with (map (fun k => (k, G k)) (t0 :: ks')).
  rewrite fst_last_map.
  rewrite (loc_map_inj meia_noite Z.eqb Z.eqb_eq meia_noite_inj
             (fun d => soma_linhas
                         (map snd (filter (fun e => (dia_de (fst e) =? d)%Z)
                                     (map (fun k => (k, G k))
                                        (t0 :: ks')))))).
  - now rewrite (filter_map_key (fun k => (dia_de k =? d)%Z)).
  - apply dias_entre_In. cbn [hd] in Hb1, Hb2.
    rewrite (sorted_last_indep (t0 :: ks') k1 t0) in Hb1 by discriminate.
    rewrite (sorted_last_indep (t0 :: ks') k2 t0) in Hb2 by discriminate.
    pose proof (dia_de_mono t0 k1 (proj1 Hb1)).
    pose proof (dia_de_mono k2 _ (proj2 Hb2)). lia.
Qed.

Lemma inject_Z_Zsum (l : list Z) :
  inject_Z (Zsum l) == Qsum (map inject_Z l).
Proof.
  induction l as [|x l IH]; simpl; [reflexivity|].
  now rewrite inject_Z_plus, IH.
Qed.

Lemma grupo_do_dia (d k : Z) (t : list registro) :
  dia_de k = d ->
  grupo (fun r => date (tx r)) Z.eqb k
        (filter (fun r => (dia_de (date (tx r)) =? d)%Z) t)
  = grupo (fun r => date (tx r)) Z.eqb k t.
Proof.
  intros Hk. unfold grupo. induction t as [|r t IH]; [reflexivity|].
  cbn [filter]. destruct (Z.eqb_spec (date (tx r)) k) as [E | E].
  - rewrite E, Hk, Z.eqb_refl. cbn [filter]. rewrite E, Z.eqb_refl.
    now rewrite IH.
  - destruct (dia_de (date (tx r)) =? d)%Z; [cbn [filter]|]; rewrite ?IH;
      destruct (Z.eqb_spec (date (tx r)) k); congruence.
Qed.

(** The sums of the transactions of one day, taken timestamp by
    timestamp, are the sums of the rows of that day. *)
Lemma soma_do_dia (t : list registro) (d : Z) :
  let ks := filter (fun k => (dia_de k =? d)%Z)
                   (chaves (fun r => date (tx r)) Z.eqb Z.leb t) in
  let row := soma_linhas
               (map (fun k => soma_diaria
                                (grupo (fun r => date (tx r)) Z.eqb k t))
                    ks) in
  let g := filter (fun r => (dia_de (date (tx r)) =? d)%Z) t in
  Diario.revenue row == Qsum (map revenue g) /\
  Diario.quantity row = Zsum (map (fun r => quantity (tx r)) g) /\
  Diario.profit row == Qsum (map profit g).
Proof.
  intros ks row g.
  assert (Hnd : NoDup ks).
  { apply NoDup_filter, (chaves_NoDup _ _ _ Z.eqb_eq). }
  assert (Hcov : forall r, In r g -> In (date (tx r)) ks).
  { intros r Hr. apply filter_In in Hr. destruct Hr as [Hr Hd].
    apply filter_In. split; [|exact Hd].
    apply (chaves_In _ _ _ Z.eqb_eq).
    now apply (in_map (fun r => date (tx r))). }
  assert (Hsum : forall val : registro -> Q,
             Qsum (map (fun k => Qsum (map val
                          (grupo (fun r => date (tx r)) Z.eqb k t))) ks)
             == Qsum (map val g)).
  { intros val.
    rewrite <- (Qsum_grupos Z.eqb Z.eqb_eq (fun r => date (tx r)) val ks g
                  Hnd Hcov).
    apply Qsum_map_ext. intros k Hk. apply filter_In in Hk.
    destruct Hk as [_ Hk]. apply Z.eqb_eq in Hk.
    unfold g. now rewrite grupo_do_dia. }
  unfold row, soma_linhas. cbn [Diario.revenue Diario.quantity Diario.profit].
  rewrite !map_map. cbn [soma_diaria Diario.revenue Diario.quantity
                          Diario.profit].
  split; [apply Hsum|]. split; [|apply Hsum].
  apply inject_Z_injective. rewrite !inject_Z_Zsum, !map_map.
  rewrite <- (Hsum (fun r => inject_Z (quantity (tx r)))).
  apply Qsum_map_ext. intros k _. now rewrite inject_Z_Zsum, map_map.
Qed.

Lemma vendas_diarias_de_ok (t : list registro) :
  t <> [] ->
  exists inicio fim,
    date_min (map (fun r => date (tx r)) t) = Some inicio /\
    date_max (map (fun r => date (tx r)) t) = Some fim /\
    vendas_diarias_de t =
      inr (reindex Z.eqb (date_range inicio fim) Diario.zero
             (resample_D_sum
                (map (fun '(d, g) => (d, soma_diaria g))
                     (groupby (fun r => date (tx r)) Z.eqb Z.leb t)))).
Proof.
  intros Hne. destruct t as [|r t]; [congruence|].
  unfold vendas_diarias_de. simpl. eauto.
Qed.

Lemma vendas_diarias_de_inv (t : list registro)
  (diarias : list (Z * Diario.row)) :
  vendas_diarias_de t = inr diarias ->
  exists inicio fim,
    date_min (map (fun r => date (tx r)) t) = Some inicio /\
    date_max (map (fun r => date (tx r)) t) = Some fim /\
    diarias =
      reindex Z.eqb (date_range inicio fim) Diario.zero
        (resample_D_sum
           (map (fun '(d, g) => (d, soma_diaria g))
                (groupby (fun r => date (tx r)) Z.eqb Z.leb t))).
Proof.
  intros E. destruct t as [|r t]; [discriminate E|].
  destruct (vendas_diarias_de_ok (r :: t)) as (a & b & Ha & Hb & E');
    [discriminate|].
  rewrite E' in E. inversion E. eauto.
Qed.

(** The daily series has [(max(date) - min(date)).days + 1] rows, and row
    [i] is labelled [min(date) + i days]: the labels keep the time of day
    of the earliest timestamp. *)
Lemma vendas_diarias_rotulos (t : list registro) :
  t <> [] ->
  exists diarias inicio fim,
    vendas_diarias_de t = inr diarias /\
    date_min (map (fun r => date (tx r)) t) = Some inicio /\
    date_max (map (fun r => date (tx r)) t) = Some fim /\
    length diarias = Z.to_nat ((fim - inicio) / NS_POR_DIA + 1) /\
    (forall i, (i < length diarias)%nat ->
       nth i (map fst diarias) 0%Z
       = (inicio + Z.of_nat i * NS_POR_DIA)%Z).
Proof.
  intros Hne.
  destruct (vendas_diarias_de_ok t Hne) as (a & b & Ha & Hb & E).
  eexists _, a, b. split; [exact E|]. split; [exact Ha|].
  split; [exact Hb|].
  assert (Hlen : forall fr,
             length (reindex Z.eqb (date_range a b) Diario.zero fr)
             = length (date_range a b)).
  { intros fr. unfold reindex. now rewrite length_map. }
  split.
  - now rewrite Hlen, date_range_length.
  - intros i Hi. rewrite reindex_labels. apply date_range_nth.
    now rewrite Hlen in Hi.
Qed.

(** When the earliest timestamp is a midnight, the daily series is the
    calendar: one row for every day from the first to the last, each with
    the sums of the rows of its day, which are 0 for a day without
    transactions. *)
Lemma vendas_diarias_desde_a_meia_noite (t : list registro)
  (diarias : list (Z * Diario.row)) (inicio fim : Z) :
  vendas_diarias_de t = inr diarias ->
  date_min (map (fun r => date (tx r)) t) = Some inicio ->
  date_max (map (fun r => date (tx r)) t) = Some fim ->
  hora_do_dia inicio = 0%Z ->
  map fst diarias = map meia_noite (dias_entre (dia_de inicio) (dia_de fim))
  /\
  forall ts row, In (ts, row) diarias ->
    let g := filter (fun r => (dia_de (date (tx r)) =? dia_de ts)%Z) t in
    Diario.revenue row == Qsum (map revenue g) /\
    Diario.quantity row = Zsum (map (fun r => quantity (tx r)) g) /\
    Diario.profit row == Qsum (map profit g).
Proof.
  intros E Ha Hb Hmid.
  destruct (vendas_diarias_de_inv t diarias E) as (a & b & Ha' & Hb' & ->).
  rewrite Ha in Ha'. rewrite Hb in Hb'. inversion Ha'; inversion Hb'.
  subst a b. clear Ha' Hb'.
  rewrite reindex_labels, (date_range_meia_noite _ _ Hmid).
  split; [reflexivity|].
  intros ts row Hin g.
  assert (Hts : In ts (map meia_noite
                         (dias_entre (dia_de inicio) (dia_de fim)))).
  { apply (in_map fst) in Hin. now rewrite reindex_labels in Hin. }
  apply in_map_iff in Hts. destruct Hts as (d & <- & Hd).
  apply dias_entre_In in Hd.
  destruct (date_min_spec _ _ Ha) as [Ha1 _].
  destruct (date_max_spec _ _ Hb) as [Hb1 _].
  apply reindex_In in Hin. rewrite por_data_as_map in Hin.
  rewrite (resample_D_sum_loc _ _ d inicio fim) in Hin.
  - destruct Hin as [El | [El _]]; [|discriminate].
    inversion El. subst row. unfold g. rewrite dia_de_meia_noite.
    apply soma_do_dia.
  - apply ordenar_Zleb_sorted.
  - now apply (chaves_In _ _ _ Z.eqb_eq).
  - now apply (chaves_In _ _ _ Z.eqb_eq).
  - exact Hd.
Qed.

(** When the earliest timestamp carries a time of day, every label of
    the daily series carries it too, no label meets a label of the
    resampled frame, and every row holds the fill value 0, whatever was
    sold. *)
Lemma vendas_diarias_fora_da_meia_noite (t : list registro)
  (diarias : list (Z * Diario.row)) (inicio : Z) :
  vendas_diarias_de t = inr diarias ->
  date_min (map (fun r => date (tx r)) t) = Some inicio ->
  hora_do_dia inicio <> 0%Z ->
  forall ts row, In (ts, row) diarias ->
    hora_do_dia ts = hora_do_dia inicio /\ row = Diario.mk_row 0 0%Z 0.
Proof.
  intros E Ha Hmid ts row Hin.
  destruct (vendas_diarias_de_inv t diarias E) as (a & b & Ha' & _ & ->).
  rewrite Ha in Ha'. inversion Ha'. subst a. clear Ha'.
  assert (Hts : hora_do_dia ts = hora_do_dia inicio).
  { apply (in_map fst) in Hin. rewrite reindex_labels in Hin.
    cbn [fst] in Hin. apply date_range_In in Hin. destruct Hin as (i & -> & _).
    apply hora_do_dia_passo. }
  split; [exact Hts|].
  apply reindex_In in Hin. destruct Hin as [El | [_ ->]]; [|reflexivity].
  exfalso. apply (loc_In Z.eqb Z.eqb_eq) in El.
  apply (in_map fst) in El. apply resample_D_sum_labels in El.
  cbn [fst] in El. congruence.
Qed.

Lemma analise_temporal_ok (t : list registro) :
  t <> [] ->
  exists diarias ins,
    vendas_diarias_de t = inr diarias /\
    analise_temporal t =
      inr ({| vendas_diarias := diarias;
              vendas_dia_semana := vendas_dia_semana_de t |}, ins).
Proof.
  intros Hne. destruct (vendas_diarias_de_ok t Hne) as (a & b & _ & _ & E).
  unfold analise_temporal. rewrite E. eauto.
Qed.

(** C4. The comment of [analise_temporal] announces a series with the
    days without sales filled in, and the specification one row per
    calendar day with the sums of the day. On a file whose dates carry a
    time of day (300 sold on 2024-01-01 at 10:00, 50 on 2024-01-03 at
    09:00) the series has two rows instead of three, labelled 10:00 of
    2024-01-01 and of 2024-01-02, and both hold 0: the revenue of
    2024-01-01 is lost and 2024-01-03 is absent. *)
Theorem vendas_diarias_perde_vendas_com_hora :
  let t := preparar_dados (fun _ => 40) csv_com_hora in
  map (fun r => (dia_de (date (tx r)), revenue r)) t
  = [(19723%Z, 300); (19725%Z, 50)] /\
  exists res ins,
    analise_temporal t = inr (res, ins) /\
    vendas_diarias res
    = [((meia_noite 19723 + 10 * NS_POR_HORA)%Z, Diario.mk_row 0 0%Z 0);
       ((meia_noite 19724 + 10 * NS_POR_HORA)%Z, Diario.mk_row 0 0%Z 0)].
Proof.
  intros t. split; [reflexivity|].
  eexists _, _. split; [vm_compute; reflexivity | reflexivity].
Qed.

(** C8. On a non-empty table the weekday aggregate of [analise_temporal]
    has exactly seven rows, labelled Monday to Sunday in that order,
    whichever weekdays occur in the data; a weekday that occurs holds the
    aggregate of its rows and a weekday without rows holds NaN in every
    column. *)
Theorem vendas_dia_semana_sete_linhas (t : list registro) :
  t <> [] ->
  exists res ins,
    analise_temporal t = inr (res, ins) /\
    length (vendas_dia_semana res) = 7%nat /\
    map fst (vendas_dia_semana res) =
      ["Monday"; "Tuesday"; "Wednesday"; "Thursday"; "Friday"; "Saturday";
       "Sunday"]%string /\
    (forall d row, In (d, row) (vendas_dia_semana res) ->
       (exists r, In r t /\ day_of_week r = d) ->
       row = agg_dia_semana (grupo day_of_week String.eqb d t)) /\
    (forall d row, In (d, row) (vendas_dia_semana res) ->
       (forall r, In r t -> day_of_week r <> d) ->
       row = Semana.mk_row NaN NaN NaN).
Proof.
  intros Hne.
  destruct (analise_temporal_ok t Hne) as (diarias & ins & _ & E).
  eexists _, ins. split; [exact E|]. cbn [vendas_dia_semana].
  unfold vendas_dia_semana_de.
  split; [reflexivity|]. split; [apply reindex_labels|]. split.
  { intros d row Hin (r & Hr & Ed). apply reindex_In in Hin.
    assert (Hk : In (d, agg_dia_semana (grupo day_of_week String.eqb d t))
               (map (fun '(k, g) => (k, agg_dia_semana g))
                  (groupby day_of_week String.eqb String.leb t))).
    { apply in_map_iff. exists (d, grupo day_of_week String.eqb d t).
      split; [reflexivity|]. apply (groupby_In _ _ _ String.eqb_eq).
      split; [|reflexivity]. rewrite <- Ed. now apply in_map. }
    apply (loc_Some String.eqb String.eqb_eq) in Hk.
    - destruct Hin as [El | [El _]]; congruence.
    - rewrite groupby_agg_labels. apply chaves_NoDup, String.eqb_eq. }
  intros d row Hin Habs. apply reindex_In in Hin.
  destruct Hin as [El | [_ ->]]; [|reflexivity].
  exfalso. apply (loc_In String.eqb String.eqb_eq) in El.
  apply in_map_iff in El. destruct El as ([k g] & Eq & Hin).
  inversion Eq; subst. apply (groupby_In _ _ _ String.eqb_eq) in Hin.
  destruct Hin as [Hk _]. apply in_map_iff in Hk.
  destruct Hk as (r & Hr & Hin). exact (Habs r Hin Hr).
Qed.

Lemma vendas_dia_semana_sete_linhas_witness :
  exists res ins,
    analise_temporal tabela_exemplo = inr (res, ins) /\
    length (vendas_dia_semana res) = 7%nat.
Proof.
  destruct (vendas_dia_semana_sete_linhas tabela_exemplo)
    as (res & ins & E & Hl & _).
  - vm_compute. discriminate.
  - exists res, ins. split; [exact E | exact Hl].
Defined.

(** ** Aggregation by product and by region *)

Lemma take_nil {A : Type} (indexer : list nat) : take (@nil A) indexer = [].
Proof.
  induction indexer as [|i l IH]; [reflexivity|].
  unfold take in *. cbn [flat_map]. rewrite IH. now destruct i.
Qed.

(** Sorting the empty frame gives the empty frame, whatever the sort. *)
Lemma sort_values_desc_nil {K V : Type} (argsort : list float64 -> list nat)
  (col : V -> float64) :
  sort_values_desc argsort col (@nil (K * V)) = [].
Proof. unfold sort_values_desc. cbn [filter rev map]. now rewrite take_nil. Qed.

Section Agregados.
Context {V : Type} (key : registro -> string) (F : list registro -> V).
Context (col : V -> float64) (argsort : list float64 -> list nat).
Hypothesis Hok : argsort_ok argsort.

Local Abbreviation tabela t :=
  (sort_values_desc argsort col
     (map (fun '(k, g) => (k, F g)) (groupby key String.eqb String.leb t))).

(** The sorted aggregate holds one row for every key that occurs, the
    aggregate of the rows of that key. *)
Lemma agregado_In (t : list registro) (k : string) (row : V) :
  In (k, row) (tabela t) <->
  (exists r, In r t /\ key r = k) /\
  row = F (grupo key String.eqb k t).
Proof.
  rewrite (sort_values_desc_In _ _ _ _ Hok), in_map_iff. split.
  - intros ([k' g] & Eq & Hin). inversion Eq; subst.
    apply (groupby_In _ _ _ String.eqb_eq) in Hin. destruct Hin as [Hk ->].
    split; [|reflexivity]. apply in_map_iff in Hk.
    destruct Hk as (r & Hr & Hin). eauto.
  - intros [(r & Hin & Hr) ->].
    exists (k, grupo key String.eqb k t).
    split; [reflexivity|]. apply (groupby_In _ _ _ String.eqb_eq).
    split; [|reflexivity]. apply in_map_iff. eauto.
Qed.




Lemma agregado_nil_inv (t : list registro) : tabela t = [] -> t = [].
Proof.
  intros E. apply (sort_values_desc_nil_inv _ _ _ Hok) in E.
  apply map_eq_nil in E.
  now apply (groupby_nil_inv _ _ _ String.eqb_eq) in E.
Qed.
End Agregados.

Lemma tabela_produto_In (argsort : list float64 -> list nat)
  (t : list registro) (p : string) (row : Produto.row) :
  argsort_ok argsort ->
  In (p, row) (tabela_produto argsort t) <->
  (exists r, In r t /\ product (tx r) = p) /\
  row = agg_produto (grupo (fun r => product (tx r)) String.eqb p t).
Proof. intros Hok. now apply agregado_In. Qed.


(** The grouped means and the weekly sums hold one entry for every key
    that occurs. *)
Lemma ticket_medio_produto_In (argsort : list float64 -> list nat)
  (t : list registro) (p : string) (m : float64) :
  argsort_ok argsort ->
  In (p, m) (ticket_medio_produto argsort t) <->
  (exists r, In r t /\ product (tx r) = p) /\
  m = mean (map revenue
              (filter (fun r => String.eqb (product (tx r)) p) t)).
Proof.
  intros Hok.
  exact (agregado_In (fun r => product (tx r))
           (fun g => mean (map revenue g)) (fun v => v) argsort Hok t p m).
Qed.

Lemma margem_regiao_In (argsort : list float64 -> list nat)
  (t : list registro) (p : string) (m : float64) :
  argsort_ok argsort ->
  In (p, m) (margem_regiao argsort t) <->
  (exists r, In r t /\ region (tx r) = p) /\
  m = mean (map margin_percent
              (filter (fun r => String.eqb (region (tx r)) p) t)).
Proof.
  intros Hok.
  exact (agregado_In (fun r => region (tx r))
           (fun g => mean (map margin_percent g)) (fun v => v) argsort Hok
           t p m).
Qed.

Lemma vendas_semana_In (t : list registro) (w : Z) (s : Q) :
  In (w, s) (vendas_semana t) <->
  (exists r, In r t /\ week_number r = w) /\
  s = Qsum (map revenue (filter (fun r => (week_number r =? w)%Z) t)).
Proof.
  unfold vendas_semana. rewrite in_map_iff. split.
  - intros ([k g] & Eq & Hin). inversion Eq; subst.
    apply (groupby_In _ _ _ Z.eqb_eq) in Hin. destruct Hin as [Hk ->].
    split; [|reflexivity]. apply in_map_iff in Hk.
    destruct Hk as (r & Hr & Hin). eauto.
  - intros [(r & Hin & Hr) ->].
    exists (w, grupo week_number Z.eqb w t).
    split; [reflexivity|]. apply (groupby_In _ _ _ Z.eqb_eq).
    split; [|reflexivity]. apply in_map_iff. eauto.
Qed.

Lemma vendas_semana_labels (t : list registro) :
  map fst (vendas_semana t) = chaves week_number Z.eqb Z.leb t /\
  StronglySorted Z.le (map fst (vendas_semana t)) /\
  NoDup (map fst (vendas_semana t)).
Proof.
  assert (E : map fst (vendas_semana t) = chaves week_number Z.eqb Z.leb t).
  { unfold vendas_semana. apply groupby_agg_labels. }
  rewrite E. split; [reflexivity|].
  split; [apply ordenar_Zleb_sorted | apply chaves_NoDup, Z.eqb_eq].
Qed.

(** The table by product is in descending order of [faturamento_total]:
    no row has a smaller total than a row below it. *)
Lemma tabela_produto_ordenada (argsort : list float64 -> list nat)
  (t : list registro) :
  argsort_ok argsort ->
  StronglySorted
    (fun a b => flt (Produto.faturamento_total (snd a))
                    (Produto.faturamento_total (snd b)) = false)
    (tabela_produto argsort t).
Proof. intros Hok. now apply sort_values_desc_sorted. Qed.

Lemma analise_por_produto_cases (argsort : list float64 -> list nat)
  (t : list registro) :
  argsort_ok argsort ->
  (t = [] /\ analise_por_produto argsort t = inl IndexError) \/
  (t <> [] /\
   exists ins,
     analise_por_produto argsort t = inr (tabela_produto argsort t, ins)).
Proof.
  intros Hok. unfold analise_por_produto.
  destruct (tabela_produto argsort t) as [|[top rtop] rest] eqn:E.
  - left. split; [|reflexivity]. now apply agregado_nil_inv in E.
  - right. split.
    + intros ->. unfold tabela_produto in E.
      cbn [groupby chaves map unique unique_from ordenar fold_right] in E.
      now rewrite sort_values_desc_nil in E.
    + destruct (last _ _) as [pior rpior]. eauto.
Qed.






(** C6, as the code has it. A product with exactly one row is aggregated
    without error, and the standard deviation of its price is NaN: the
    sample standard deviation (ddof = 1) is undefined for one
    observation. *)
Theorem std_de_grupo_unitario (argsort : list float64 -> list nat)
  (t : list registro) (p : string) (r : registro) :
  argsort_ok argsort ->
  grupo (fun r => product (tx r)) String.eqb p t = [r] ->
  exists tab ins row,
    analise_por_produto argsort t = inr (tab, ins) /\
    In (p, row) tab /\
    Produto.preco_std row = NaN.
Proof.
  intros Hok Hg.
  assert (Hin : In r t /\ product (tx r) = p).
  { apply (proj1 (grupo_In (fun r => product (tx r)) _ String.eqb_eq t p r)).
    rewrite Hg. now left. }
  destruct (analise_por_produto_cases argsort t Hok)
    as [[-> _] | [_ [ins E]]].
  - destruct Hin as [[] _].
  - exists (tabela_produto argsort t), ins, (agg_produto [r]).
    split; [exact E|]. split; [|reflexivity].
    apply tabela_produto_In; [exact Hok|]. rewrite Hg.
    split; [|reflexivity]. exists r. exact Hin.
Qed.

Lemma std_de_grupo_unitario_witness :
  exists tab ins row,
    analise_por_produto argsort_estavel tabela_exemplo = inr (tab, ins) /\
    In ("B"%string, row) tab /\
    Produto.preco_std row = NaN.
Proof.
  eapply (std_de_grupo_unitario argsort_estavel tabela_exemplo "B"%string).
  - exact argsort_estavel_ok.
  - vm_compute. reflexivity.
Defined.

(** C6, as the specification words it, fails: product B of the example
    table has one row and its standard deviation is not 0. *)
Lemma std_de_grupo_unitario_nao_zero :
  ~ (forall (t : list registro) (p : string) (r : registro) tab ins row,
       grupo (fun r => product (tx r)) String.eqb p t = [r] ->
       analise_por_produto argsort_estavel t = inr (tab, ins) ->
       In (p, row) tab ->
       exists q, Produto.preco_std row = Fin q /\ q == 0).
Proof.
  intros H.
  destruct (grupo (fun r => product (tx r)) String.eqb "B"%string
              tabela_exemplo)
    as [|r [|r' l]] eqn:Hg; try (vm_compute in Hg; discriminate).
  destruct (analise_por_produto_cases argsort_estavel tabela_exemplo
              argsort_estavel_ok)
    as [[E _] | [_ [ins E]]]; [vm_compute in E; discriminate|].
  destruct (H tabela_exemplo "B"%string r _ ins (agg_produto [r]) Hg E)
    as (q & Hq & _).
  - apply tabela_produto_In; [exact argsort_estavel_ok|]. rewrite Hg.
    split; [|reflexivity]. exists r.
    apply (proj1 (grupo_In (fun r => product (tx r)) _ String.eqb_eq
                    tabela_exemplo _ r)).
    rewrite Hg. now left.
  - discriminate Hq.
Qed.

(** ** Outliers *)







(** ** Growth *)

Lemma combine_map_Fin (x y : list Q) :
  combine (map Fin x) (map Fin y) =
  map (fun p => (Fin (fst p), Fin (snd p))) (combine x y).
Proof.
  revert y. induction x as [|a x IH]; intros [|b y]; simpl; try reflexivity.
  now rewrite IH.
Qed.

Lemma pct_change_Fin (x : list Q) :
  pct_change (map Fin x) =
  match x with
  | [] => []
  | _ => NaN :: map variacao (pares x)
  end.
Proof.
  destruct x as [|a x]; [reflexivity|].
  unfold pct_change, pares. cbn [map tl]. f_equal.
  change (Fin a :: map Fin x) with (map Fin (a :: x)).
  rewrite combine_map_Fin, map_map. reflexivity.
Qed.

Lemma isnan_inf_of_sign (q : Q) : isnan (inf_of_sign q) = Qeq_bool q 0.
Proof.
  unfold inf_of_sign. destruct (Qeq_bool q 0); [reflexivity|].
  now destruct (Qltb 0 q).
Qed.

(** The change of a pair is NaN only for a pair of two zeros. *)
Lemma isnan_variacao (p : Q * Q) :
  isnan (variacao p) = Qeq_bool (fst p) 0 && Qeq_bool (snd p) 0.
Proof.
  destruct p as [a b]. unfold variacao. cbn [fst snd fdiv].
  destruct (Qeq_bool a 0); cbn [andb]; [|reflexivity].
  rewrite <- isnan_inf_of_sign. now destruct (inf_of_sign b).
Qed.

Lemma notna_map_variacao (ps : list (Q * Q)) :
  notna (map variacao ps) =
  map variacao
      (filter (fun p => negb (Qeq_bool (fst p) 0 && Qeq_bool (snd p) 0)) ps).
Proof.
  unfold notna. induction ps as [|p ps IH]; [reflexivity|].
  cbn [map filter]. rewrite isnan_variacao, IH.
  now destruct (Qeq_bool (fst p) 0 && Qeq_bool (snd p) 0).
Qed.

Lemma crescimento_medio_unfold (x : list Q) :
  crescimento_medio x =
  fmul (media
          (map variacao
               (filter (fun p =>
                          negb (Qeq_bool (fst p) 0 && Qeq_bool (snd p) 0))
                       (pares x))))
       (Fin 100).
Proof.
  unfold crescimento_medio, fmean. rewrite pct_change_Fin.
  destruct x as [|a x]; [reflexivity|].
  change (notna (NaN :: ?l)) with (notna l).
  rewrite notna_map_variacao. unfold media.
  now destruct (map variacao _).
Qed.

(** C5, as the code has it. The growth statistic is 100 times the plain
    mean of the successive changes [atual / anterior - 1] of the series,
    taken over the pairs that are not two zeros: a pair of two zeros gives
    NaN and is left out, a pair that rises from zero gives an infinite
    change and stays in the mean. The daily growth applies this to the
    revenue of the gap-filled daily series and the weekly growth to the
    revenue summed by week number. *)
Theorem crescimento_ignora_apenas_nan (t : list registro) :
  let politica := fun x =>
    fmul (media
            (map variacao
                 (filter (fun p =>
                            negb (Qeq_bool (fst p) 0 && Qeq_bool (snd p) 0))
                         (pares x))))
         (Fin 100) in
  (forall diarias, vendas_diarias_de t = inr diarias ->
     crescimento_diario diarias =
     politica (map (fun e => Diario.revenue (snd e)) diarias)) /\
  crescimento_semanal t = politica (map snd (vendas_semana t)) /\
  (forall a b, ~ a == 0 -> variacao (a, b) = Fin (b / a - 1)) /\
  (forall a b, a == 0 -> 0 < b -> variacao (a, b) = PInf) /\
  (forall a b, a == 0 -> b < 0 -> variacao (a, b) = NInf) /\
  (forall a b, a == 0 -> b == 0 -> variacao (a, b) = NaN).
Proof.
  intros politica. split; [|split].
  - intros diarias _. apply crescimento_medio_unfold.
  - apply crescimento_medio_unfold.
  - assert (Hz : forall a b, a == 0 ->
              variacao (a, b) = fsub (inf_of_sign b) (Fin 1)).
    { intros a b Ha. unfold variacao. cbn [fst snd fdiv].
      now rewrite (Qeq_eq_bool _ _ Ha). }
    split; [|split; [|split]].
    + intros a b Ha. unfold variacao. cbn [fst snd fdiv].
      destruct (Qeq_bool a 0) eqn:E; [|reflexivity].
      apply Qeq_bool_eq in E. contradiction.
    + intros a b Ha Hb. rewrite (Hz a b Ha). unfold inf_of_sign.
      destruct (Qeq_bool b 0) eqn:E.
      * apply Qeq_bool_eq in E. lra.
      * apply Qltb_lt in Hb. now rewrite Hb.
    + intros a b Ha Hb. rewrite (Hz a b Ha). unfold inf_of_sign.
      destruct (Qeq_bool b 0) eqn:E.
      * apply Qeq_bool_eq in E. lra.
      * destruct (Qltb 0 b) eqn:E'; [|reflexivity].
        apply Qltb_lt in E'. lra.
    + intros a b Ha Hb. rewrite (Hz a b Ha). unfold inf_of_sign.
      now rewrite (Qeq_eq_bool _ _ Hb).
Qed.

(** C5, as the specification words it, fails on the example table: the
    day without sales is followed by a day with sales, the code reports an
    infinite growth, and leaving out every pair with a zero prior day gives
    a finite one. *)
Lemma crescimento_diario_nao_exclui_zero :
  exists diarias,
    vendas_diarias_de tabela_exemplo = inr diarias /\
    map (fun e => Diario.revenue (snd e)) diarias = [200; 50; 0; 250] /\
    crescimento_diario diarias = PInf /\
    crescimento_diario diarias
    <> crescimento_spec (map (fun e => Diario.revenue (snd e)) diarias).
Proof.
  destruct (vendas_diarias_de tabela_exemplo) as [e | diarias] eqn:E;
    [vm_compute in E; discriminate|].
  exists diarias. split; [reflexivity|].
  vm_compute in E. inversion E; subst diarias. clear E.
  split; [reflexivity|]. split; [reflexivity|].
  vm_compute. discriminate.
Qed.

(** ** Cross tabulation *)

Lemma posicao_from {K : Type} (keqb : K -> K -> bool)
  (keqb_eq : forall a b, keqb a b = true <-> a = b) (k : K) (l : list K) :
  forall s, In k l ->
  exists n,
    match find (fun e => keqb k (snd e)) (combine (seq s (length l)) l) with
    | Some (m, _) => Some m
    | None => None
    end = Some (s + n)%nat /\ nth_error l n = Some k.
Proof.
  induction l as [|x l IH]; intros s Hin; [contradiction|].
  cbn [length seq combine find snd].
  destruct (keqb k x) eqn:E.
  - apply keqb_eq in E. subst x. exists 0%nat.
    split; [now rewrite Nat.add_0_r | reflexivity].
  - destruct Hin as [-> | Hin].
    + rewrite (keqb_refl keqb keqb_eq) in E. discriminate.
    + destruct (IH (S s) Hin) as (n & Hn & Hnth).
      exists (S n). split; [|exact Hnth].
      rewrite Hn. f_equal. lia.
Qed.

Lemma posicao_In {K : Type} (keqb : K -> K -> bool)
  (keqb_eq : forall a b, keqb a b = true <-> a = b) (k : K) (l : list K) :
  In k l -> exists n, posicao keqb k l = Some n /\ nth_error l n = Some k.
Proof.
  intros Hin. destruct (posicao_from keqb keqb_eq k l 0%nat Hin) as (n & H).
  exists n. exact H.
Qed.

Section PivotFacts.
Context {A R C : Type}.
Context (index : A -> option R) (columns : A -> option C).
Context (values : A -> Q).
Context (reqb rleb : R -> R -> bool) (ceqb cleb : C -> C -> bool).
Hypothesis reqb_eq : forall a b, reqb a b = true <-> a = b.
Hypothesis ceqb_eq : forall a b, ceqb a b = true <-> a = b.

Lemma pair_eqb_eq (a b : R * C) :
  pair_eqb reqb ceqb a b = true <-> a = b.
Proof.
  destruct a as [a1 a2], b as [b1 b2]. unfold pair_eqb. simpl.
  rewrite andb_true_iff, reqb_eq, ceqb_eq. split.
  - intros [-> ->]. reflexivity.
  - intros E. inversion E. auto.
Qed.

Lemma rotulados_In (t : list A) (k : R * C) (r : A) :
  In (k, r) (rotulados index columns t) <->
  In r t /\ index r = Some (fst k) /\ columns r = Some (snd k).
Proof.
  induction t as [|x t IH]; simpl; [tauto|].
  destruct (index x) as [i|] eqn:Ei, (columns x) as [c|] eqn:Ec;
    simpl; rewrite IH; clear IH.
  - split.
    + intros [E | H]; [|tauto]. inversion E; subst. simpl. auto.
    + intros [[-> | H] [H1 H2]]; [|tauto]. left.
      destruct k as [k1 k2]. simpl in *. congruence.
  - split; [tauto|]. intros [[-> | H] [H1 H2]]; [congruence | tauto].
  - split; [tauto|]. intros [[-> | H] [H1 H2]]; [congruence | tauto].
  - split; [tauto|]. intros [[-> | H] [H1 H2]]; [congruence | tauto].
Qed.

(** The rows that carry both labels. *)
Lemma rotulados_rows (t : list A) (r : A) :
  In r (map snd (rotulados index columns t)) <->
  In r t /\ index r <> None /\ columns r <> None.
Proof.
  rewrite in_map_iff. split.
  - intros ([k r'] & E & H). simpl in E. subst r'.
    apply rotulados_In in H. destruct H as (H & H1 & H2).
    split; [assumption|]. split; congruence.
  - intros (H & H1 & H2).
    destruct (index r) as [i|] eqn:Ei; [|congruence].
    destruct (columns r) as [c|] eqn:Ec; [|congruence].
    exists ((i, c), r). split; [reflexivity|].
    apply rotulados_In. auto.
Qed.

Lemma agged_labels (t : list A) :
  map fst (agged index columns values reqb rleb ceqb cleb t) =
  chaves fst (pair_eqb reqb ceqb) (pair_leb reqb rleb cleb)
    (rotulados index columns t).
Proof.
  unfold agged. rewrite map_map. rewrite <- groupby_labels.
  apply map_ext. now intros [k g].
Qed.

Lemma agged_NoDup (t : list A) :
  NoDup (map fst (agged index columns values reqb rleb ceqb cleb t)).
Proof. rewrite agged_labels. apply chaves_NoDup, pair_eqb_eq. Qed.

Lemma agged_key (t : list A) (k : R * C) :
  In k (map fst (agged index columns values reqb rleb ceqb cleb t)) <->
  exists r, In r t /\ index r = Some (fst k) /\ columns r = Some (snd k).
Proof.
  rewrite agged_labels, (chaves_In _ _ _ pair_eqb_eq), in_map_iff. split.
  - intros ([k' r] & E & H). simpl in E. subst k'.
    apply rotulados_In in H. eauto.
  - intros (r & H). exists (k, r). split; [reflexivity|].
    now apply rotulados_In.
Qed.

Lemma agged_soma (t : list A) :
  Qsum (map snd (agged index columns values reqb rleb ceqb cleb t)) ==
  Qsum (map values (map snd (rotulados index columns t))).
Proof.
  unfold agged, groupby. rewrite !map_map.
  rewrite (Qsum_map_ext _
             (fun k => Qsum (map (fun e => values (snd e))
                               (grupo fst (pair_eqb reqb ceqb) k
                                  (rotulados index columns t)))))
    by reflexivity.
  apply (Qsum_grupos _ pair_eqb_eq).
  - apply chaves_NoDup, pair_eqb_eq.
  - intros r Hr. apply (chaves_In _ _ _ pair_eqb_eq). now apply in_map.
Qed.
End PivotFacts.

Section PivotGrid.
Context {A R C : Type}.
Context (index : A -> option R) (columns : A -> option C).
Context (values : A -> Q).
Context (reqb rleb : R -> R -> bool) (ceqb cleb : C -> C -> bool).
Hypothesis reqb_eq : forall a b, reqb a b = true <-> a = b.
Hypothesis ceqb_eq : forall a b, ceqb a b = true <-> a = b.

Local Abbreviation entrada := (entrada reqb ceqb).
Local Abbreviation tabela :=
  (pivot_table index columns values reqb rleb ceqb cleb 0).

(** Spread over a grid of distinct labels that covers its keys, a frame
    keeps its sum. *)
Lemma soma_grade (f : list ((R * C) * Q)) (idx : list R) (cols : list C) :
  NoDup (map fst f) -> NoDup idx -> NoDup cols ->
  (forall k, In k (map fst f) -> In (fst k) idx /\ In (snd k) cols) ->
  Qsum (map (fun i => Qsum (map (entrada 0 f i) cols)) idx)
  == Qsum (map snd f).
Proof.
  intros Hf Hidx Hcols. induction f as [|[[i0 c0] v0] f IH]; intros Hk.
  - simpl. rewrite (Qsum_map_ext _ (fun _ => 0)).
    + apply Qsum_map_zero.
    + intros i _. apply Qsum_map_zero.
  - simpl in Hf. inversion Hf as [|? ? Hnew Hf']; subst.
    destruct (Hk (i0, c0) (or_introl eq_refl)) as [Hi0 Hc0].
    simpl in Hi0, Hc0.
    rewrite (Qsum_map_ext _
               (fun i => (if reqb i i0 then v0 else 0)
                         + Qsum (map (entrada 0 f i) cols))).
    + rewrite Qsum_map_plus.
      rewrite (Qsum_indicator reqb reqb_eq i0 (fun _ => v0))
        by assumption.
      rewrite IH; [reflexivity | assumption |].
      intros k Hin. apply Hk. now right.
    + intros i _.
      rewrite (Qsum_map_ext _
                 (fun c => (if ceqb c c0
                            then (if reqb i i0 then v0 else 0) else 0)
                           + entrada 0 f i c)).
      * rewrite Qsum_map_plus.
        rewrite (Qsum_indicator ceqb ceqb_eq c0
                   (fun _ => if reqb i i0 then v0 else 0))
          by assumption.
        reflexivity.
      * intros c _. unfold entrada. cbn [loc].
        unfold pair_eqb at 1. cbn [fst snd].
        destruct (reqb i i0) eqn:Ei, (ceqb c c0) eqn:Ec; cbn [andb];
          try ring.
        apply reqb_eq in Ei. apply ceqb_eq in Ec. subst i c.
        rewrite (loc_None _ (pair_eqb_eq reqb ceqb reqb_eq ceqb_eq))
          by assumption.
        ring.
Qed.

Lemma pv_index_In (t : list A) (i : R) :
  In i (pv_index (tabela t)) <->
  exists r, In r t /\ index r = Some i /\ columns r <> None.
Proof.
  unfold pivot_table. cbn [pv_index].
  rewrite ordenar_In, (unique_In _ reqb_eq), in_map_iff. split.
  - intros ([k v] & E & H). simpl in E. subst i.
    apply (in_map fst) in H. simpl in H.
    apply (agged_key index columns values reqb rleb ceqb cleb
             reqb_eq ceqb_eq) in H.
    destruct H as (r & Hr & H1 & H2). exists r.
    split; [assumption|]. split; [assumption | congruence].
  - intros (r & Hr & H1 & H2).
    destruct (columns r) as [c|] eqn:Ec; [|congruence].
    assert (Hk : In (i, c)
              (map fst (agged index columns values reqb rleb ceqb cleb t))).
    { apply (agged_key index columns values reqb rleb ceqb cleb
               reqb_eq ceqb_eq). exists r. auto. }
    apply in_map_iff in Hk. destruct Hk as ([k v] & E & H).
    simpl in E. subst k. exists ((i, c), v). auto.
Qed.

Lemma pv_columns_In (t : list A) (c : C) :
  In c (pv_columns (tabela t)) <->
  exists r, In r t /\ index r <> None /\ columns r = Some c.
Proof.
  unfold pivot_table. cbn [pv_columns].
  rewrite ordenar_In, (unique_In _ ceqb_eq), in_map_iff. split.
  - intros ([k v] & E & H). simpl in E. subst c.
    apply (in_map fst) in H. simpl in H.
    apply (agged_key index columns values reqb rleb ceqb cleb
             reqb_eq ceqb_eq) in H.
    destruct H as (r & Hr & H1 & H2). exists r.
    split; [assumption|]. split; [congruence | assumption].
  - intros (r & Hr & H1 & H2).
    destruct (index r) as [i|] eqn:Ei; [|congruence].
    assert (Hk : In (i, c)
              (map fst (agged index columns values reqb rleb ceqb cleb t))).
    { apply (agged_key index columns values reqb rleb ceqb cleb
               reqb_eq ceqb_eq). exists r. auto. }
    apply in_map_iff in Hk. destruct Hk as ([k v] & E & H).
    simpl in E. subst k. exists ((i, c), v). auto.
Qed.

Lemma pv_labels_NoDup (t : list A) :
  NoDup (pv_index (tabela t)) /\ NoDup (pv_columns (tabela t)).
Proof.
  unfold pivot_table. cbn [pv_index pv_columns]. split.
  - eapply Permutation_NoDup; [apply Permutation_sym, ordenar_perm|].
    apply unique_NoDup. intros k. now apply reqb_eq.
  - eapply Permutation_NoDup; [apply Permutation_sym, ordenar_perm|].
    apply unique_NoDup. intros k. now apply ceqb_eq.
Qed.

(** The cells add up to the sum over the rows that carry both labels. *)
Lemma soma_celulas_tabela (t : list A) :
  soma_celulas (tabela t) ==
  Qsum (map values (map snd (rotulados index columns t))).
Proof.
  rewrite <- (agged_soma index columns values reqb rleb ceqb cleb
                reqb_eq ceqb_eq).
  destruct (pv_labels_NoDup t) as [Hi Hc].
  unfold soma_celulas. unfold pivot_table in *.
  cbn [pv_cells pv_index pv_columns] in *. rewrite map_map.
  apply soma_grade; try assumption.
  - apply agged_NoDup; assumption.
  - intros [i c] Hk. cbn [fst snd].
    rewrite !ordenar_In, (unique_In _ reqb_eq), (unique_In _ ceqb_eq).
    apply in_map_iff in Hk. destruct Hk as ([k v] & E & H).
    simpl in E. subst k. split; apply in_map_iff; exists ((i, c), v); auto.
Qed.
End PivotGrid.

Section PivotCells.
Context {A R C : Type}.
Context (index : A -> option R) (columns : A -> option C).
Context (values : A -> Q).
Context (reqb rleb : R -> R -> bool) (ceqb cleb : C -> C -> bool).
Hypothesis reqb_eq : forall a b, reqb a b = true <-> a = b.
Hypothesis ceqb_eq : forall a b, ceqb a b = true <-> a = b.

Local Abbreviation agg := (agged index columns values reqb rleb ceqb cleb).
Local Abbreviation tabela :=
  (pivot_table index columns values reqb rleb ceqb cleb 0).
Local Abbreviation casa :=
  (fun i c r => option_eqb reqb (index r) (Some i)
                && option_eqb ceqb (columns r) (Some c)).

Lemma rotulados_filter (t : list A) :
  map snd (rotulados index columns t) =
  filter (fun r => match index r, columns r with
                   | Some _, Some _ => true
                   | _, _ => false
                   end) t.
Proof.
  induction t as [|x t IH]; [reflexivity|]. cbn [rotulados filter].
  destruct (index x), (columns x); cbn [map snd]; now rewrite IH.
Qed.

Lemma grupo_rotulados (t : list A) (i : R) (c : C) :
  map snd (grupo fst (pair_eqb reqb ceqb) (i, c)
             (rotulados index columns t)) =
  filter (casa i c) t.
Proof.
  unfold grupo. induction t as [|x t IH]; [reflexivity|].
  cbn [rotulados filter].
  destruct (index x) as [i'|], (columns x) as [c'|];
    cbn [option_eqb andb filter fst]; try exact IH.
  - unfold pair_eqb at 1. cbn [fst snd].
    destruct (reqb i' i && ceqb c' c); cbn [map snd]; now rewrite IH.
  - rewrite andb_false_r. exact IH.
Qed.

Lemma casa_spec (i : R) (c : C) (r : A) :
  casa i c r = true <-> index r = Some i /\ columns r = Some c.
Proof.
  rewrite andb_true_iff.
  destruct (index r) as [i'|], (columns r) as [c'|]; cbn [option_eqb];
    rewrite ?reqb_eq, ?ceqb_eq; split; intros [H1 H2];
    try discriminate; split; congruence.
Qed.

(** An entry is the sum over the rows of its combination, and it is the
    fill value 0 when the combination has no row. *)
Lemma entrada_valor (t : list A) (i : R) (c : C) :
  entrada reqb ceqb 0 (agg t) i c == Qsum (map values (filter (casa i c) t))
  /\ ((forall r, In r t -> ~ (index r = Some i /\ columns r = Some c)) ->
      entrada reqb ceqb 0 (agg t) i c = 0).
Proof.
  unfold entrada.
  destruct (loc (pair_eqb reqb ceqb) (i, c) (agg t)) as [v|] eqn:El.
  - apply (loc_In _ (pair_eqb_eq reqb ceqb reqb_eq ceqb_eq)) in El.
    assert (Hkey := in_map fst _ _ El). cbn [fst] in Hkey.
    apply (agged_key index columns values reqb rleb ceqb cleb
             reqb_eq ceqb_eq) in Hkey.
    destruct Hkey as (r & Hr & H1 & H2). cbn [fst snd] in H1, H2.
    split.
    + unfold agged in El. apply in_map_iff in El.
      destruct El as ([k g] & E & Hin). inversion E; subst k v. clear E.
      apply (groupby_In _ _ _ (pair_eqb_eq reqb ceqb reqb_eq ceqb_eq))
        in Hin.
      destruct Hin as [_ ->]. rewrite <- grupo_rotulados, map_map.
      reflexivity.
    + intros Habs. exfalso. apply (Habs r Hr). auto.
  - split; [|reflexivity].
    replace (filter (casa i c) t) with (@nil A); [reflexivity|].
    symmetry. destruct (filter (casa i c) t) as [|r rest] eqn:Ef;
      [reflexivity|].
    exfalso.
    assert (Hr : In r (filter (casa i c) t)) by (rewrite Ef; now left).
    apply filter_In in Hr. destruct Hr as [Hr Hc].
    apply casa_spec in Hc.
    assert (Hkey : In (i, c) (map fst (agg t))).
    { apply (agged_key index columns values reqb rleb ceqb cleb
               reqb_eq ceqb_eq). exists r. tauto. }
    apply in_map_iff in Hkey. destruct Hkey as ([k v] & E & Hin).
    simpl in E. subst k.
    apply (loc_Some _ (pair_eqb_eq reqb ceqb reqb_eq ceqb_eq)) in Hin.
    * congruence.
    * apply agged_NoDup; assumption.
Qed.

(** Every combination of a row label and a column label has a cell. *)
Lemma celula_tabela (t : list A) (i : R) (c : C) :
  In i (pv_index (tabela t)) -> In c (pv_columns (tabela t)) ->
  celula reqb ceqb (tabela t) i c = Some (entrada reqb ceqb 0 (agg t) i c).
Proof.
  intros Hi Hc. unfold celula.
  destruct (posicao_In reqb reqb_eq i _ Hi) as (n & -> & Hn).
  destruct (posicao_In ceqb ceqb_eq c _ Hc) as (m & -> & Hm).
  unfold pivot_table in *. cbn [pv_cells pv_index pv_columns] in *.
  rewrite (map_nth_error _ _ _ Hn). now apply map_nth_error.
Qed.
End PivotCells.

Lemma rotulados_todos {A R C : Type} (index : A -> R) (columns : A -> C)
  (t : list A) :
  map snd (rotulados (fun r => Some (index r)) (fun r => Some (columns r)) t)
  = t.
Proof.
  induction t as [|x t IH]; [reflexivity|]. simpl. now rewrite IH.
Qed.

Lemma rotulados_idem {A R C : Type} (index : A -> option R)
  (columns : A -> option C) (t : list A) :
  rotulados index columns
    (filter (fun r => match columns r with Some _ => true | None => false end)
            t)
  = rotulados index columns t.
Proof.
  induction t as [|x t IH]; [reflexivity|]. cbn [filter rotulados].
  destruct (columns x) eqn:Ec.
  - cbn [rotulados]. rewrite Ec, IH. reflexivity.
  - rewrite IH. now destruct (index x).
Qed.

Lemma soma_pivot_produto_regiao (t : list registro) :
  soma_celulas (pivot_produto_regiao t) == Qsum (map revenue t).
Proof.
  unfold pivot_produto_regiao.
  rewrite (soma_celulas_tabela _ _ _ _ _ _ _ String.eqb_eq String.eqb_eq).
  now rewrite (rotulados_todos (fun r => product (tx r))
                 (fun r => region (tx r))).
Qed.

Lemma soma_pivot_regiao_categoria (t : list registro) :
  soma_celulas (pivot_regiao_categoria t) ==
  Qsum (map revenue (filter tem_categoria t)).
Proof.
  unfold pivot_regiao_categoria.
  rewrite (soma_celulas_tabela _ _ _ _ _ _ _ String.eqb_eq String.eqb_eq).
  rewrite rotulados_filter. reflexivity.
Qed.

(** C3, as the code has it. A pivot table over any row dimension and
    column dimension is dense: the row value and the column value of
    every row that carries both are labels, every combination of a row
    label and a column label has a cell, and the cell holds the sum of the
    rows of the combination, 0 where there is none. The cells add up to
    the sum of the measure over the rows that carry both labels: the whole
    table for product by region, the rows that have a price category for
    region by price category. *)
Theorem tabela_cruzada_densa :
  (forall (A R C : Type) (index : A -> option R) (columns : A -> option C)
          (values : A -> Q) (reqb rleb : R -> R -> bool)
          (ceqb cleb : C -> C -> bool),
     (forall a b, reqb a b = true <-> a = b) ->
     (forall a b, ceqb a b = true <-> a = b) ->
     forall t : list A,
       let p := pivot_table index columns values reqb rleb ceqb cleb 0 t in
       (forall i r, In r t -> index r = Some i -> columns r <> None ->
                    In i (pv_index p)) /\
       (forall c r, In r t -> index r <> None -> columns r = Some c ->
                    In c (pv_columns p)) /\
       NoDup (pv_index p) /\ NoDup (pv_columns p) /\
       (forall i c, In i (pv_index p) -> In c (pv_columns p) ->
          exists v,
            celula reqb ceqb p i c = Some v /\
            v == Qsum (map values
                         (filter (fun r =>
                                    option_eqb reqb (index r) (Some i)
                                    && option_eqb ceqb (columns r) (Some c))
                                 t)) /\
            ((forall r, In r t ->
                        ~ (index r = Some i /\ columns r = Some c)) ->
             v = 0)) /\
       soma_celulas p ==
       Qsum (map values
               (filter (fun r => match index r, columns r with
                                 | Some _, Some _ => true
                                 | _, _ => false
                                 end) t))) /\
  (forall t : list registro,
     soma_celulas (pivot_produto_regiao t) == Qsum (map revenue t)) /\
  (forall t : list registro,
     soma_celulas (pivot_regiao_categoria t) ==
     Qsum (map revenue (filter tem_categoria t))).
Proof.
  split; [|split].
  - intros A R C index columns values reqb rleb ceqb cleb Hr Hc t p.
    split.
    { intros i r H1 H2 H3. apply (pv_index_In _ _ _ _ _ _ _ Hr Hc). eauto. }
    split.
    { intros c r H1 H2 H3. apply (pv_columns_In _ _ _ _ _ _ _ Hr Hc).
      eauto. }
    destruct (pv_labels_NoDup index columns values reqb rleb ceqb cleb
                Hr Hc t) as [H1 H2].
    split; [exact H1|]. split; [exact H2|]. split.
    + intros i c Hi Hcol.
      exists (entrada reqb ceqb 0
                (agged index columns values reqb rleb ceqb cleb t) i c).
      split; [now apply celula_tabela|].
      now apply entrada_valor.
    + subst p. rewrite soma_celulas_tabela by assumption.
      now rewrite rotulados_filter.
  - apply soma_pivot_produto_regiao.
  - apply soma_pivot_regiao_categoria.
Qed.

(** C3, as the specification words it, fails for region by price
    category: the example table has a sale at price 250, which has no
    price category, and the cells add up to 250 while the revenue of the
    table is 500. *)
Lemma pivot_regiao_categoria_perde_receita :
  soma_celulas (pivot_regiao_categoria tabela_exemplo) == 250 /\
  Qsum (map revenue tabela_exemplo) == 500 /\
  ~ soma_celulas (pivot_regiao_categoria tabela_exemplo)
    == Qsum (map revenue tabela_exemplo).
Proof.
  split; [|split]; vm_compute; congruence.
Qed.

(** ** Binning *)

Ltac casos_Qltb :=
  repeat match goal with
         | H : Qltb _ _ = true |- _ => apply Qltb_lt in H
         | H : Qltb _ _ = false |- _ => apply Qltb_ge in H
         end.

(** A price has no category exactly when it is at most 0 or above 200. *)
Lemma cut_price_None (x : Q) :
  cut price_bins price_labels x = None <-> x <= 0 \/ 200 < x.
Proof.
  unfold cut, searchsorted_left, price_bins, price_labels.
  cbn [filter flt].
  destruct (Qltb 0 x) eqn:E0, (Qltb 50 x) eqn:E1, (Qltb 100 x) eqn:E2,
    (Qltb 150 x) eqn:E3, (Qltb 200 x) eqn:E4;
    casos_Qltb; try (exfalso; lra); cbn;
    (split; [intros H; try discriminate H; ((left; lra) || (right; lra))
            | intros [H | H]; try reflexivity; exfalso; lra]).
Qed.

(** A revenue has no order value category exactly when it is at most 0. *)
Lemma cut_order_None (x : Q) :
  cut order_bins order_labels x = None <-> x <= 0.
Proof.
  unfold cut, searchsorted_left, order_bins, order_labels.
  cbn [filter flt].
  destruct (Qltb 0 x) eqn:E0, (Qltb 100 x) eqn:E1, (Qltb 500 x) eqn:E2,
    (Qltb 1000 x) eqn:E3;
    casos_Qltb; try (exfalso; lra); cbn;
    (split; [intros H; try discriminate H; lra
            | intros H; try reflexivity; exfalso; lra]).
Qed.

(** C10. A row of the prepared table whose price is at most 0 or above
    200 has no price category, and a row whose revenue is at most 0 has no
    order value category (in both cases these are the only such rows).
    The rows without a price category add nothing to the region by price
    category pivot, whose cells add up to the revenue of the other rows;
    on the example table that is strictly less than the revenue of the
    table. *)
Theorem categoria_ausente_fora_das_faixas :
  (forall uniform df e, In e (preparar_dados uniform df) ->
     (price_category e = None <->
      price (tx e) <= 0 \/ 200 < price (tx e))) /\
  (forall uniform df e, In e (preparar_dados uniform df) ->
     (order_value_category e = None <-> revenue e <= 0)) /\
  (forall t : list registro,
     pivot_regiao_categoria t = pivot_regiao_categoria (filter tem_categoria t)
     /\ soma_celulas (pivot_regiao_categoria t) ==
        Qsum (map revenue (filter tem_categoria t))) /\
  (exists e, In e tabela_exemplo /\ price_category e = None) /\
  soma_celulas (pivot_regiao_categoria tabela_exemplo)
  < Qsum (map revenue tabela_exemplo).
Proof.
  split; [|split; [|split; [|split]]].
  - intros uniform df e H. apply enriquecer_from_inv in H.
    destruct H as (j & v & m & -> & _). apply cut_price_None.
  - intros uniform df e H. apply enriquecer_from_inv in H.
    destruct H as (j & v & m & -> & _). apply cut_order_None.
  - intros t. split; [|apply soma_pivot_regiao_categoria].
    unfold pivot_regiao_categoria, pivot_table, agged, tem_categoria.
    now rewrite rotulados_idem.
  - eexists. split; [right; right; left; reflexivity | reflexivity].
  - vm_compute. reflexivity.
Qed.

(** ** Cleaning and the rolling mean *)

Lemma existsb_filter {K : Type} (g f : K -> bool) (l : list K) :
  (forall x, g x = true -> f x = true) ->
  existsb g (filter f l) = existsb g l.
Proof.
  intros H. induction l as [|x l IH]; [reflexivity|]. cbn [filter existsb].
  destruct (f x) eqn:Ef; cbn [existsb]; rewrite IH; [reflexivity|].
  destruct (g x) eqn:Eg; [|reflexivity].
  rewrite (H x Eg) in Ef. discriminate.
Qed.

(** Taking distinct values commutes with a filter that cannot tell equal
    values apart. *)
Lemma unique_from_filter {K : Type} (keqb : K -> K -> bool) (f : K -> bool) :
  (forall a b, keqb a b = true -> f a = f b) ->
  forall seen l,
    filter f (unique_from keqb seen l) =
    unique_from keqb (filter f seen) (filter f l).
Proof.
  intros Hf seen l. revert seen.
  induction l as [|k l IH]; intros seen; [reflexivity|].
  cbn [unique_from filter]. destruct (f k) eqn:Ek.
  - cbn [unique_from]. rewrite existsb_filter.
    + destruct (existsb (keqb k) seen); [apply IH|].
      cbn [filter]. rewrite Ek, IH. cbn [filter]. now rewrite Ek.
    + intros x Hx. rewrite <- (Hf _ _ Hx). exact Ek.
  - destruct (existsb (keqb k) seen); [apply IH|].
    cbn [filter]. rewrite Ek, IH. cbn [filter]. now rewrite Ek.
Qed.

Lemma option_eqb_eq {X : Type} (eqb : X -> X -> bool) :
  (forall a b, eqb a b = true -> a = b) ->
  forall x y, option_eqb eqb x y = true -> x = y.
Proof.
  intros H [a|] [b|]; simpl; intros E; try discriminate; [|reflexivity].
  f_equal. now apply H.
Qed.

Lemma row_eqb_refl (r : Csv.row) : row_eqb r r = true.
Proof.
  unfold row_eqb.
  destruct (Csv.date r), (Csv.product r), (Csv.region r), (Csv.price r),
    (Csv.quantity r); cbn [option_eqb];
    rewrite ?Z.eqb_refl, ?String.eqb_refl, ?Qeq_bool_refl; reflexivity.
Qed.

Lemma row_eqb_product (a b : Csv.row) :
  row_eqb a b = true -> Csv.product a = Csv.product b.
Proof.
  unfold row_eqb. rewrite !andb_true_iff. intros [[[[_ H] _] _] _].
  apply (option_eqb_eq String.eqb); [|exact H].
  intros x y. apply String.eqb_eq.
Qed.

Lemma completa_product (r : Csv.row) (v : venda) (p : string) :
  completa r = Some v -> String.eqb (product v) p = do_produto_csv p r.
Proof.
  unfold completa, do_produto_csv.
  destruct (Csv.date r), (Csv.product r), (Csv.region r), (Csv.price r),
    (Csv.quantity r); intros E; try discriminate.
  inversion E. reflexivity.
Qed.

Lemma completa_inj (r1 r2 : Csv.row) (v : venda) :
  completa r1 = Some v -> completa r2 = Some v -> r1 = r2.
Proof.
  unfold completa. destruct r1 as [d1 p1 g1 x1 q1], r2 as [d2 p2 g2 x2 q2].
  simpl.
  destruct d1, p1, g1, x1, q1; intros E1; try discriminate.
  destruct d2, p2, g2, x2, q2; intros E2; try discriminate.
  inversion E1; inversion E2; subst. congruence.
Qed.

Lemma dropna_In (df : list Csv.row) (v : venda) :
  In v (dropna df) <-> exists r, In r df /\ completa r = Some v.
Proof.
  induction df as [|r df IH]; simpl.
  - split; [contradiction | intros (r & [] & _)].
  - destruct (completa r) as [v'|] eqn:E; simpl; rewrite IH; split.
    + intros [<- | (r' & H1 & H2)]; eauto.
    + intros (r' & [<- | H1] & H2); [left; congruence | eauto].
    + intros (r' & H1 & H2). eauto.
    + intros (r' & [<- | H1] & H2); [congruence | eauto].
Qed.

Lemma dropna_NoDup (df : list Csv.row) : NoDup df -> NoDup (dropna df).
Proof.
  induction 1 as [|r df Hr Hnd IH]; simpl; [constructor|].
  destruct (completa r) as [v|] eqn:E; [|exact IH].
  constructor; [|exact IH].
  intros Hin. apply dropna_In in Hin. destruct Hin as (r' & H1 & H2).
  rewrite (completa_inj _ _ _ E H2) in Hr. contradiction.
Qed.

Lemma dropna_filter (p : string) (df : list Csv.row) :
  grupo product String.eqb p (dropna df) =
  dropna (filter (do_produto_csv p) df).
Proof.
  unfold grupo. induction df as [|r df IH]; [reflexivity|].
  cbn [dropna filter]. destruct (completa r) as [v|] eqn:E.
  - cbn [filter]. rewrite (completa_product _ _ p E).
    destruct (do_produto_csv p r); cbn [dropna]; rewrite ?E, IH; reflexivity.
  - destruct (do_produto_csv p r); cbn [dropna]; rewrite ?E, IH; reflexivity.
Qed.

(** The cleaned table has no repeated row, and its rows of one product are
    determined by the CSV rows of that product. *)
Lemma limpeza_NoDup (df : list Csv.row) : NoDup (dropna (drop_duplicates df)).
Proof.
  apply dropna_NoDup. apply unique_NoDup. apply row_eqb_refl.
Qed.

Lemma limpeza_grupo (p : string) (df : list Csv.row) :
  grupo product String.eqb p (dropna (drop_duplicates df)) =
  dropna (drop_duplicates (filter (do_produto_csv p) df)).
Proof.
  rewrite dropna_filter. f_equal. unfold drop_duplicates, unique.
  apply (unique_from_filter row_eqb (do_produto_csv p)).
  intros a b H. unfold do_produto_csv. now rewrite (row_eqb_product a b H).
Qed.

Section TransformFacts.
Context {A K : Type} (key : A -> K) (keqb : K -> K -> bool).
Context (val : A -> Q) (f : list Q -> list float64).
Hypothesis keqb_eq : forall a b, keqb a b = true <-> a = b.

Lemma transform_from_length (done rest : list A) :
  length (transform_from key keqb val f done rest) = length rest.
Proof.
  revert done. induction rest as [|r rest IH]; intros done; simpl;
    [reflexivity|].
  now rewrite IH.
Qed.

(** The value that a row receives: the entry of [f] on its group at the
    number of rows of the group that come before it. *)
Lemma transform_from_In (done rest : list A) (r : A) (m : float64) :
  In (r, m) (combine rest (transform_from key keqb val f done rest)) ->
  exists rest1 rest2,
    rest = rest1 ++ r :: rest2 /\
    m = nth (length (grupo key keqb (key r) (done ++ rest1)))
            (f (map val (grupo key keqb (key r) (done ++ rest)))) NaN.
Proof.
  revert done. induction rest as [|x rest IH]; intros done H;
    [contradiction|].
  cbn [transform_from combine] in H. destruct H as [E | H].
  - inversion E; subst. exists [], rest.
    split; [reflexivity|]. now rewrite app_nil_r.
  - destruct (IH _ H) as (r1 & r2 & -> & Hm).
    exists (x :: r1), r2. split; [reflexivity|].
    rewrite <- !app_assoc in Hm. exact Hm.
Qed.

Lemma groupby_transform_In (t : list A) (r : A) (m : float64) :
  In (r, m) (combine t (groupby_transform key keqb val f t)) ->
  exists g1 g2,
    grupo key keqb (key r) t = g1 ++ r :: g2 /\
    m = nth (length g1) (f (map val (grupo key keqb (key r) t))) NaN.
Proof.
  intros H. apply transform_from_In in H.
  destruct H as (r1 & r2 & E & Hm). cbn [app] in Hm.
  exists (grupo key keqb (key r) r1), (grupo key keqb (key r) r2).
  split; [|exact Hm].
  rewrite E. unfold grupo. rewrite filter_app. cbn [filter].
  now rewrite (keqb_refl keqb keqb_eq).
Qed.
End TransformFacts.

Lemma NoDup_split_unique {A : Type} (x : A) (g1 g2 h1 h2 : list A) :
  NoDup (g1 ++ x :: g2) -> g1 ++ x :: g2 = h1 ++ x :: h2 -> g1 = h1.
Proof.
  revert h1. induction g1 as [|a g1 IH]; intros h1 Hnd E.
  - destruct h1 as [|b h1]; [reflexivity|]. exfalso.
    simpl in E. inversion E; subst. simpl in Hnd.
    inversion Hnd as [|? ? Hx _]; subst. apply Hx.
    apply in_or_app. right. now left.
  - destruct h1 as [|b h1].
    + exfalso. simpl in E. inversion E; subst. simpl in Hnd.
      inversion Hnd as [|? ? Hx _]; subst. apply Hx.
      apply in_or_app. right. now left.
    + simpl in E. inversion E; subst. f_equal.
      simpl in Hnd. inversion Hnd; subst. now apply IH.
Qed.

Lemma enriquecer_from_In (uniform : nat -> Q) (vs : list venda) :
  forall (i : nat) (ma7 : list float64) (e : registro),
    In e (enriquecer_from uniform i vs ma7) ->
    In (tx e, revenue_ma7 e) (combine vs ma7).
Proof.
  induction vs as [|v vs IH]; simpl; intros i ma7 e H; [contradiction|].
  destruct ma7 as [|m ma7]; [contradiction|].
  destruct H as [<- | H]; [now left | right; eauto].
Qed.

Lemma enriquecer_from_tx (uniform : nat -> Q) (vs : list venda) :
  forall (i : nat) (ma7 : list float64),
    length ma7 = length vs ->
    map tx (enriquecer_from uniform i vs ma7) = vs.
Proof.
  induction vs as [|v vs IH]; intros i [|m ma7] H; simpl in *;
    try discriminate; try reflexivity.
  f_equal. apply IH. now inversion H.
Qed.

Lemma preparar_dados_tx (uniform : nat -> Q) (df : list Csv.row) :
  map tx (preparar_dados uniform df) = dropna (drop_duplicates df).
Proof.
  unfold preparar_dados. apply enriquecer_from_tx.
  apply transform_from_length.
Qed.

(** The values of [rolling_mean]: at position [k] the mean of the last
    [w] values among the first [k + 1]. *)
Lemma rolling_mean_nth (w k : nat) (x : list Q) :
  (k < length x)%nat ->
  nth k (rolling_mean w x) NaN = mean (skipn (S k - w) (firstn (S k) x)).
Proof.
  intros H. unfold rolling_mean.
  rewrite nth_indep with (d' := mean (skipn (1 - w) (firstn 1 x)))
    by now rewrite length_map, length_seq.
  rewrite (map_nth (fun k => mean (skipn (S k - w) (firstn (S k) x)))).
  now rewrite seq_nth.
Qed.

Lemma revenue_ma7_grupo (uniform : nat -> Q) (df : list Csv.row)
  (e : registro) :
  In e (preparar_dados uniform df) ->
  exists g1 g2,
    grupo product String.eqb (product (tx e)) (dropna (drop_duplicates df))
    = g1 ++ tx e :: g2 /\
    revenue_ma7 e =
    nth (length g1)
        (rolling_mean 7
           (map (fun v => price v * inject_Z (quantity v))
              (grupo product String.eqb (product (tx e))
                 (dropna (drop_duplicates df))))) NaN.
Proof.
  intros H. unfold preparar_dados in H. apply enriquecer_from_In in H.
  apply (groupby_transform_In product String.eqb _ _ String.eqb_eq) in H.
  exact H.
Qed.

(** C2, as the code has it. The rolling mean follows the row order of the
    table, not the dates: [revenue_ma7] of a row is the mean of the revenue
    of that row and of up to six rows of the same product that come before
    it in the cleaned table. Two input tables whose rows of every product
    are the same and in the same order give the same transactions and the
    same [revenue_ma7] for each of them, whatever the order of the rows of
    different products. *)
Theorem revenue_ma7_segue_ordem_das_linhas :
  (forall uniform df e,
     In e (preparar_dados uniform df) ->
     exists g1 g2,
       grupo product String.eqb (product (tx e))
         (dropna (drop_duplicates df)) = g1 ++ tx e :: g2 /\
       revenue_ma7 e =
       mean (skipn (S (length g1) - 7)
               (map (fun v => price v * inject_Z (quantity v))
                    (g1 ++ [tx e])))) /\
  (forall u1 u2 df1 df2,
     (forall p, filter (do_produto_csv p) df1
                = filter (do_produto_csv p) df2) ->
     (forall v, In v (map tx (preparar_dados u1 df1)) <->
                In v (map tx (preparar_dados u2 df2))) /\
     (forall e1 e2,
        In e1 (preparar_dados u1 df1) -> In e2 (preparar_dados u2 df2) ->
        tx e1 = tx e2 -> revenue_ma7 e1 = revenue_ma7 e2)).
Proof.
  split.
  - intros uniform df e H.
    destruct (revenue_ma7_grupo uniform df e H) as (g1 & g2 & Eg & Em).
    exists g1, g2. split; [exact Eg|].
    rewrite Em, Eg. rewrite rolling_mean_nth.
    + f_equal. f_equal. rewrite firstn_map. f_equal.
      rewrite firstn_app, firstn_all2 by lia.
      replace (S (length g1) - length g1)%nat with 1%nat by lia.
      reflexivity.
    + rewrite length_map, length_app. simpl. lia.
  - intros u1 u2 df1 df2 Hp.
    assert (Hg : forall p,
               grupo product String.eqb p (dropna (drop_duplicates df1)) =
               grupo product String.eqb p (dropna (drop_duplicates df2))).
    { intros p. now rewrite !limpeza_grupo, Hp. }
    split.
    + intros v. rewrite !preparar_dados_tx.
      assert (Hin : forall c, In v c <->
                In v (grupo product String.eqb (product v) c)).
      { intros c. rewrite (grupo_In _ _ String.eqb_eq). tauto. }
      now rewrite (Hin (dropna (drop_duplicates df1))), Hg, <- Hin.
    + intros e1 e2 H1 H2 Etx.
      destruct (revenue_ma7_grupo u1 df1 e1 H1) as (g1 & g2 & Eg & ->).
      destruct (revenue_ma7_grupo u2 df2 e2 H2) as (h1 & h2 & Eh & ->).
      rewrite <- Etx in *. rewrite <- Hg in *.
      assert (Hnd : NoDup (g1 ++ tx e1 :: g2)).
      { rewrite <- Eg. apply NoDup_filter, limpeza_NoDup. }
      rewrite Eg in Eh.
      now rewrite (NoDup_split_unique _ _ _ _ _ Hnd Eh).
Qed.

(** C2, as the specification words it, fails: the example table read in
    reverse order is a permutation of it, and the sale of product A on
    2024-01-04 receives 225 in one order and 250 in the other. *)
Lemma revenue_ma7_depende_da_ordem :
  Permutation csv_exemplo (rev csv_exemplo) /\
  exists e1 e2,
    In e1 (preparar_dados (fun _ => 40) csv_exemplo) /\
    In e2 (preparar_dados (fun _ => 40) (rev csv_exemplo)) /\
    tx e1 = tx e2 /\
    revenue_ma7 e1 = Fin (450 # 2) /\
    revenue_ma7 e2 = Fin 250 /\
    revenue_ma7 e1 <> revenue_ma7 e2.
Proof.
  split; [apply Permutation_rev|].
  eexists _, _. split; [right; right; left; reflexivity|].
  split; [left; reflexivity|].
  split; [reflexivity|]. split; [reflexivity|]. split; [reflexivity|].
  vm_compute. discriminate.
Qed.

(** ** The revenue column *)



Example um_decimo_e_o_float_de_0_1 :
  valid_binary prec emax um_decimo = true /\
  exists p, valor um_decimo = Fin p /\
            0 <= p - (1 # 10) /\ p - (1 # 10) < 1 # (2 ^ 57).
Proof.
  split; [reflexivity|]. eexists. split; [reflexivity|].
  split; [vm_compute; discriminate | vm_compute; reflexivity].
Qed.

Example exemplo_revenue_int64 :
  series_mul (Int64 [100; 50; 250]%Z) (Int64 [2; 1; 1]%Z)
  = Int64 [200; 50; 250]%Z.
Proof. reflexivity. Qed.

Example exemplo_revenue_float64 :
  valores (series_mul (Float64 [float64_of_int64 100; um_decimo])
                      (Int64 [2; 10]%Z))
  = [Fin 200; Fin 1].
Proof. vm_compute. reflexivity. Qed.





